(** * HyperWaBot: connection supervisor and event router (src/core/bot.js)

    A shallow embedding of the [HyperWaBot] class.  The class is stateful,
    asynchronous and talks to many collaborators (the Baileys transport, the
    auth provider, the Telegram bridge, the module loader, the logger).  The
    embedding threads three things through every method:

    - the fields of the object ([HyperWaBot], explicit state passing);
    - the errors a JavaScript [throw] / rejected promise raises ([Res]);
    - the observable effects, in program order ([Event]): every log line,
      every timer and every call made on a collaborator, with its outcome.

    What a collaborator answers is not decided by bot.js; it is read from a
    [World], an oracle indexed by the position of the call in the run, so
    every theorem below holds for every behaviour of the collaborators.
    Every [await] in bot.js is awaited before the next statement runs, so a
    method is modelled by the sequential composition of its statements.
    A [run] (below) follows one call of a method or of the batch callback
    to its end before the next one starts: it covers the schedules in which
    the transport delivers a batch once the callback of the previous one has
    settled, not those in which two callbacks overlap at an [await]. *)

From Stdlib Require Import ZArith List Lia Bool.
From stdpp Require Import base option list strings gmap.

Local Open Scope string_scope.
Local Open Scope list_scope.

(** ** Data model *)

(** [connection] of a connection-state update. *)
Inductive ConnState := Connecting | Open | Close.

(** [error.output] of a Boom error: [output?.statusCode] may be undefined. *)
Record BoomOutput := { statusCode : option Z }.

(** The value of [lastDisconnect.error]: an instance of Boom or any other
    object. *)
Inductive JsError :=
  | Boom (output : option BoomOutput)
  | OtherError.

Record LastDisconnect := { error : option JsError }.

(** The payload of a ['connection.update'] event. Every field is optional. *)
Record ConnUpdate := {
  connection : option ConnState;
  lastDisconnect : option LastDisconnect;
  qr : option string
}.

(** [contact.imgUrl] is absent, [null] or a string. *)
Inductive ImgUrl := ImgUndefined | ImgNull | ImgString (url : string).

Record ContactUpdate := { contact_id : string; imgUrl : ImgUrl }.

Record HistorySet := {
  hs_chats : list string; hs_contacts : list string; hs_messages : list string;
  hs_isLatest : bool; hs_progress : Z
}.

(** Payloads the router only forwards or measures. *)
Definition Payload := list string.

(** One event batch: the object handed to the callback of [sock.ev.process].
    A kind is present when its key holds a (truthy) payload. *)
Record EventBatch := {
  ev_connection_update : option ConnUpdate;
  ev_creds_update : option Payload;
  ev_messages_upsert : option Payload;
  ev_messages_update : option Payload;
  ev_message_receipt_update : option Payload;
  ev_messages_reaction : option Payload;
  ev_presence_update : option Payload;
  ev_chats_update : option Payload;
  ev_chats_delete : option Payload;
  ev_contacts_update : option (list ContactUpdate);
  ev_contacts_upsert : option Payload;
  ev_call : option (list string);
  ev_messaging_history_set : option HistorySet;
  ev_labels_association : option Payload;
  ev_labels_edit : option Payload
}.

(** The connection handle returned by [makeWASocket]. [sock_ended] is the
    handle's own state: [sock.end()] closes it. *)
Record Sock := { sock_id : nat; sock_ended : bool }.

(** A stored message ([msg.message] may be missing) and the in-memory store
    of Baileys: [contacts] is keyed by jid, messages by (jid, id); [bound] is
    the handle whose event stream feeds the store. *)
Record StoredMsg := { message : option string }.

Record Store := {
  contacts : gmap string string;
  messages : gmap (string * string) StoredMsg;
  bound : option nat
}.

(** [makeInMemoryStore(...)]: a new store with nothing in it. *)
Definition makeInMemoryStore : Store :=
  {| contacts := ∅; messages := ∅; bound := None |}.

(** The fields of the object, as the constructor declares them. *)
Record HyperWaBot := {
  sock : option Sock;
  store : option Store;
  messageHandler : option unit;
  moduleLoader : option unit;
  telegramBridge : option nat;
  db : option unit;
  isInitialized : bool;
  retryCount : Z;
  maxRetries : Z
}.

(** [constructor()] *)
Definition new_bot : HyperWaBot :=
  {| sock := None; store := None; messageHandler := None; moduleLoader := None;
     telegramBridge := None; db := None; isInitialized := false;
     retryCount := 0; maxRetries := 5 |}.

Definition set_sock (v : option Sock) (s : HyperWaBot) : HyperWaBot :=
  {| sock := v; store := store s; messageHandler := messageHandler s;
     moduleLoader := moduleLoader s; telegramBridge := telegramBridge s;
     db := db s; isInitialized := isInitialized s;
     retryCount := retryCount s; maxRetries := maxRetries s |}.

Definition set_store (v : option Store) (s : HyperWaBot) : HyperWaBot :=
  {| sock := sock s; store := v; messageHandler := messageHandler s;
     moduleLoader := moduleLoader s; telegramBridge := telegramBridge s;
     db := db s; isInitialized := isInitialized s;
     retryCount := retryCount s; maxRetries := maxRetries s |}.

Definition set_messageHandler (v : option unit) (s : HyperWaBot) : HyperWaBot :=
  {| sock := sock s; store := store s; messageHandler := v;
     moduleLoader := moduleLoader s; telegramBridge := telegramBridge s;
     db := db s; isInitialized := isInitialized s;
     retryCount := retryCount s; maxRetries := maxRetries s |}.

Definition set_moduleLoader (v : option unit) (s : HyperWaBot) : HyperWaBot :=
  {| sock := sock s; store := store s; messageHandler := messageHandler s;
     moduleLoader := v; telegramBridge := telegramBridge s;
     db := db s; isInitialized := isInitialized s;
     retryCount := retryCount s; maxRetries := maxRetries s |}.

Definition set_telegramBridge (v : option nat) (s : HyperWaBot) : HyperWaBot :=
  {| sock := sock s; store := store s; messageHandler := messageHandler s;
     moduleLoader := moduleLoader s; telegramBridge := v;
     db := db s; isInitialized := isInitialized s;
     retryCount := retryCount s; maxRetries := maxRetries s |}.

Definition set_db (v : option unit) (s : HyperWaBot) : HyperWaBot :=
  {| sock := sock s; store := store s; messageHandler := messageHandler s;
     moduleLoader := moduleLoader s; telegramBridge := telegramBridge s;
     db := v; isInitialized := isInitialized s;
     retryCount := retryCount s; maxRetries := maxRetries s |}.

Definition set_isInitialized (v : bool) (s : HyperWaBot) : HyperWaBot :=
  {| sock := sock s; store := store s; messageHandler := messageHandler s;
     moduleLoader := moduleLoader s; telegramBridge := telegramBridge s;
     db := db s; isInitialized := v;
     retryCount := retryCount s; maxRetries := maxRetries s |}.

Definition set_retryCount (v : Z) (s : HyperWaBot) : HyperWaBot :=
  {| sock := sock s; store := store s; messageHandler := messageHandler s;
     moduleLoader := moduleLoader s; telegramBridge := telegramBridge s;
     db := db s; isInitialized := isInitialized s;
     retryCount := v; maxRetries := maxRetries s |}.

(** ** Errors, effects and the collaborators *)

Inductive Err :=
  | TypeError (what : string)       (* a property read on null *)
  | SocketNotInitialized            (* new Error('WhatsApp socket not initialized') *)
  | External (code : nat).          (* raised by a collaborator *)

(** The two texts [sendToAllUsers] is called with. *)
Inductive Notice := NoticeMaxRetries | NoticeLoggedOut.

(** Calls made on collaborators that may fail. *)
Inductive ExtCall :=
  | ConnectDb
  | NewMessageHandler
  | NewModuleLoader
  | UseMongoAuthState
  | UseMultiFileAuthState
  | FetchLatestBaileysVersion
  | MakeInMemoryStore
  | MakeCacheableSignalKeyStore
  | MakeWASocket
  | StoreBind (h : nat)
  | EvProcess (h : nat)
  | SaveCreds
  | HandleMessages (p : Payload)
  | ProfilePictureUrl (h : nat) (id : string)
  | HandleCallNotification (b : nat) (call : string)
  | SendQRCode (b : nat) (q : string)
  | ImportQrcodeTerminal
  | QRCodeGenerate (q : string)
  | SendToAllUsers (b : nat) (text : Notice)
  | LoadModules
  | NewTelegramBridge
  | BridgeInitialize (b : nat)
  | BridgeSetupWhatsAppHandlers (b : nat)
  | BridgeSyncContacts (b : nat)
  | BridgeUpdateTopicNames (b : nat)
  | BridgeSendStartMessage (b : nat)
  | SockSendMessage (h : nat) (jid content : string)
  | StoreLoadMessage (remoteJid id : string)
  | BridgeShutdown (b : nat)
  | SockEnd (h : nat).

Inductive Level := Info | Error | Debug.

Inductive LogMsg :=
  | LInitializing | LDatabaseConnected | LInitComplete | LFailedInit (e : Err)
  | LUsingMongoAuth | LUsingFileAuth | LUsingVersion | LConnectionStarted
  | LFailedStart (e : Err)
  | LMessagesUpdated (n : nat) | LReceiptUpdated | LReaction | LPresence
  | LChatsUpdated (n : nat) | LChatsDeleted (n : nat)
  | LNewProfilePic (id url : string) | LNewContacts (n : nat)
  | LCallReceived | LHistory (chats contacts msgs : nat)
  | LLabelAssociation | LLabelEdited
  | LQrReceived
  | LClosed (reconnecting : bool)
  | LReconnecting (retryDelay attempt max : Z)
  | LMaxRetries | LLoggedOut
  | LOpened | LConnectedAs | LConnecting
  | LFailedSend (e : Err)
  | LShuttingDown | LShutdownComplete | LShutdownError (e : Err).

(** One observable effect. [ECall c None] is a call that returned,
    [ECall c (Some e)] one that threw [e]. *)
Inductive Event :=
  | ELog (l : Level) (m : LogMsg)
  | EDelay (ms : Z)
  | ECall (c : ExtCall) (outcome : option Err).

(** What the collaborators do. The first argument of every field is the
    clock: the number of effects the run has produced so far.
    [loggedOut] is [DisconnectReason.loggedOut], a constant of the
    transport library. *)
Record World := {
  fails : nat → ExtCall → option Err;
  pictureUrl : nat → option string;
  cfg_useMongoAuth : nat → bool;
  cfg_telegram_enabled : nat → bool;
  loggedOut : Z
}.

(** ** The monad of methods *)

Inductive Res (A : Type) :=
  | Ret (a : A)
  | Throw (e : Err).
Arguments Ret {A} a.
Arguments Throw {A} e.

(** A method reads the world, starts at a clock in a state, and ends with a
    result, a state and the effects it produced. *)
Definition M (A : Type) : Type :=
  World → nat → HyperWaBot → Res A * HyperWaBot * list Event.

Definition ret {A} (a : A) : M A := λ _ _ s, (Ret a, s, []).

Definition bind {A B} (m : M A) (f : A → M B) : M B := λ W n s,
  match m W n s with
  | (Ret a, s1, t1) =>
      match f a W (n + length t1) s1 with
      | (r, s2, t2) => (r, s2, t1 ++ t2)
      end
  | (Throw e, s1, t1) => (Throw e, s1, t1)
  end.

Notation "x <- m ;; k" := (bind m (λ x, k))
  (at level 100, m at next level, right associativity, only parsing).
Notation "m ;; k" := (bind m (λ _, k))
  (at level 100, right associativity, only parsing).

Definition throw {A} (e : Err) : M A := λ _ _ s, (Throw e, s, []).

(** [try { m } catch (e) { h e }] *)
Definition try_catch {A} (m : M A) (h : Err → M A) : M A := λ W n s,
  match m W n s with
  | (Ret a, s1, t1) => (Ret a, s1, t1)
  | (Throw e, s1, t1) =>
      match h e W (n + length t1) s1 with
      | (r, s2, t2) => (r, s2, t1 ++ t2)
      end
  end.

Definition gets {A} (f : HyperWaBot → A) : M A := λ _ _ s, (Ret (f s), s, []).
Definition modify (f : HyperWaBot → HyperWaBot) : M unit := λ _ _ s, (Ret tt, f s, []).
Definition ask {A} (f : World → nat → A) : M A := λ W n s, (Ret (f W n), s, []).
Definition clock : M nat := λ _ n s, (Ret n, s, []).

(** [logger.info/error/debug] and [delay] do not fail. *)
Definition log (l : Level) (m : LogMsg) : M unit := λ _ _ s, (Ret tt, s, [ELog l m]).
Definition delay (ms : Z) : M unit := λ _ _ s, (Ret tt, s, [EDelay ms]).

(** A call on a collaborator: the world says whether it throws. *)
Definition ext (c : ExtCall) : M unit := λ W n s,
  match fails W n c with
  | None => (Ret tt, s, [ECall c None])
  | Some e => (Throw e, s, [ECall c (Some e)])
  end.

Definition when (b : bool) (m : M unit) : M unit := if b then m else ret tt.

(** [for (const x of l) { f x }] *)
Fixpoint for_of {A} (l : list A) (f : A → M unit) : M unit :=
  match l with
  | [] => ret tt
  | x :: l' => f x ;; for_of l' f
  end.

(** The parts of a finished method. *)
Definition result {A} (x : Res A * HyperWaBot * list Event) : Res A := x.1.1.
Definition final {A} (x : Res A * HyperWaBot * list Event) : HyperWaBot := x.1.2.
Definition trace {A} (x : Res A * HyperWaBot * list Event) : list Event := x.2.

(** ** The methods of [HyperWaBot] *)

(** [this.sock], or the TypeError a property read on [null] raises. *)
Definition the_sock : M Sock :=
  sk <- gets sock ;;
  match sk with
  | Some h => ret h
  | None => throw (TypeError "sock")
  end.

(** [setupEventHandlers(saveCreds)]: registers the batch callback
    ([process_batch] below) on the event stream of the current handle. *)
Definition setupEventHandlers : M unit :=
  h <- the_sock ;;
  ext (EvProcess (sock_id h)).

(** [startConnection()] *)
Definition startConnection : M unit :=
  try_catch
    (useMongoAuth <- ask cfg_useMongoAuth ;;
     (if useMongoAuth
      then log Info LUsingMongoAuth ;; ext UseMongoAuthState
      else log Info LUsingFileAuth ;; ext UseMultiFileAuthState) ;;
     ext FetchLatestBaileysVersion ;;
     log Info LUsingVersion ;;
     ext MakeInMemoryStore ;;
     modify (set_store (Some makeInMemoryStore)) ;;
     ext MakeCacheableSignalKeyStore ;;
     n <- clock ;;
     ext MakeWASocket ;;
     modify (set_sock (Some {| sock_id := n; sock_ended := false |})) ;;
     st <- gets store ;;
     match st with
     | None => throw (TypeError "store")
     | Some st =>
         h <- the_sock ;;
         ext (StoreBind (sock_id h)) ;;
         modify (set_store (Some {| contacts := contacts st;
                                    messages := messages st;
                                    bound := Some (sock_id h) |}))
     end ;;
     setupEventHandlers ;;
     log Info LConnectionStarted)
    (λ e, log Error (LFailedStart e) ;; throw e).

(** [initialize()] *)
Definition initialize : M unit :=
  try_catch
    (log Info LInitializing ;;
     ext ConnectDb ;;
     modify (set_db (Some tt)) ;;
     log Info LDatabaseConnected ;;
     ext NewMessageHandler ;;
     modify (set_messageHandler (Some tt)) ;;
     ext NewModuleLoader ;;
     modify (set_moduleLoader (Some tt)) ;;
     startConnection ;;
     modify (set_isInitialized true) ;;
     log Info LInitComplete)
    (λ e, log Error (LFailedInit e) ;; throw e).

(** JavaScript truthiness of an optional string: [if (qr)]. *)
Definition truthy (q : option string) : bool :=
  match q with
  | Some q => negb (String.eqb q "")
  | None => false
  end.

(** [lastDisconnect?.error instanceof Boom] with its [output?.statusCode]. *)
Definition boom_status (u : ConnUpdate) : option (option Z) :=
  match lastDisconnect u with
  | Some {| error := Some (Boom (Some o)) |} => Some (statusCode o)
  | Some {| error := Some (Boom None) |} => Some None
  | _ => None
  end.

(** [shouldReconnect]: for a Boom error, [statusCode !== loggedOut]; for
    anything else (no [lastDisconnect], no error, another error), [true]. *)
Definition shouldReconnect (W : World) (u : ConnUpdate) : bool :=
  match boom_status u with
  | Some (Some c) => negb (c =? loggedOut W)%Z
  | Some None => true
  | None => true
  end.

(** [Math.min(1000 * Math.pow(2, retryCount), 30000)] for a counter that is
    a natural number: there the double arithmetic of JavaScript is exact
    and agrees with the integers. On a negative counter [Math.pow] gives a
    fraction ([Math.pow(2, -1)] is 0.5, so 500 ms) while [2 ^ retryCount]
    is 0, so the definition does not describe the code there. The counter
    of the object starts at 0 and is only incremented or reset to 0, and
    the claims and properties proved below that say how long a timer lasts
    assume or establish a counter that is at least 0. *)
Definition retryDelay (retryCount : Z) : Z :=
  Z.min (1000 * 2 ^ retryCount) 30000.

(** [if (qr) { ... }] of [handleConnectionUpdate]. *)
Definition handle_qr (u : ConnUpdate) : M unit :=
  when (truthy (qr u))
    (let q := default "" (qr u) in
     log Info LQrReceived ;;
     b <- gets telegramBridge ;;
     match b with
     | Some b => ext (SendQRCode b q)
     | None => ext ImportQrcodeTerminal ;; ext (QRCodeGenerate q)
     end).

(** [if (connection === 'close') { ... }] *)
Definition handle_close (u : ConnUpdate) : M unit :=
  match connection u with
  | Some Close =>
      reconnect <- ask (λ W _, shouldReconnect W u) ;;
      log Info (LClosed reconnect) ;;
      if reconnect then
        rc <- gets retryCount ;;
        mx <- gets maxRetries ;;
        if (rc <? mx)%Z then
          modify (λ s, set_retryCount (retryCount s + 1) s) ;;
          rc <- gets retryCount ;;
          log Info (LReconnecting (retryDelay rc) rc mx) ;;
          delay (retryDelay rc) ;;
          startConnection
        else
          log Error LMaxRetries ;;
          b <- gets telegramBridge ;;
          match b with
          | Some b => ext (SendToAllUsers b NoticeMaxRetries)
          | None => ret tt
          end
      else
        log Info LLoggedOut ;;
        b <- gets telegramBridge ;;
        match b with
        | Some b => ext (SendToAllUsers b NoticeLoggedOut)
        | None => ret tt
        end
  | _ => ret tt
  end.

(** [if (connection === 'open') { ... }] *)
Definition handle_open (u : ConnUpdate) : M unit :=
  match connection u with
  | Some Open =>
      log Info LOpened ;;
      the_sock ;;
      log Info LConnectedAs ;;
      modify (set_retryCount 0) ;;
      ml <- gets moduleLoader ;;
      match ml with
      | None => throw (TypeError "moduleLoader")
      | Some _ => ext LoadModules
      end ;;
      enabled <- ask cfg_telegram_enabled ;;
      when enabled
        (b <- gets telegramBridge ;;
         match b with
         | None =>
             n <- clock ;;
             ext NewTelegramBridge ;;
             modify (set_telegramBridge (Some n)) ;;
             ext (BridgeInitialize n) ;;
             ext (BridgeSetupWhatsAppHandlers n)
         | Some _ => ret tt
         end ;;
         b <- gets telegramBridge ;;
         match b with
         | None => throw (TypeError "telegramBridge")
         | Some b =>
             ext (BridgeSyncContacts b) ;;
             ext (BridgeUpdateTopicNames b) ;;
             ext (BridgeSendStartMessage b)
         end)
  | _ => ret tt
  end.

(** [if (connection === 'connecting') { ... }] *)
Definition handle_connecting (u : ConnUpdate) : M unit :=
  match connection u with
  | Some Connecting => log Info LConnecting
  | _ => ret tt
  end.

(** [handleConnectionUpdate(update)] *)
Definition handleConnectionUpdate (u : ConnUpdate) : M unit :=
  handle_qr u ;;
  handle_close u ;;
  handle_open u ;;
  handle_connecting u.

(** [msg?.message || undefined]: the content of the message found, unless
    there is none or it is falsy. *)
Definition message_or_undefined (msg : option StoredMsg) : option string :=
  if truthy (msg ≫= message) then msg ≫= message else None.

(** [getMessage(key)]. [store.loadMessage] is an awaited call on the store
    of the transport library: it may reject, as the world decides, and the
    rejection is not caught; when it resolves it answers the message the
    store holds under [(remoteJid, id)], if any. [None] is [undefined]. *)
Definition getMessage (remoteJid id : string) : M (option string) :=
  st <- gets store ;;
  match st with
  | Some st =>
      ext (StoreLoadMessage remoteJid id) ;;
      ret (message_or_undefined (messages st !! (remoteJid, id)))
  | None => ret None
  end.

(** [sendMessage(jid, content, options)] *)
Definition sendMessage (jid content : string) : M unit :=
  try_catch
    (sk <- gets sock ;;
     match sk with
     | None => throw SocketNotInitialized
     | Some h => ext (SockSendMessage (sock_id h) jid content)
     end)
    (λ e, log Error (LFailedSend e) ;; throw e).

(** The members every plain object inherits from [Object.prototype]:
    [store.contacts] is a plain object, and [contacts[jid]] is a property
    read, which finds them when the object has no property of its own under
    that name. *)
Definition object_prototype_members : list string :=
  ["constructor"; "__defineGetter__"; "__defineSetter__"; "hasOwnProperty";
   "__lookupGetter__"; "__lookupSetter__"; "isPrototypeOf";
   "propertyIsEnumerable"; "toString"; "valueOf"; "__proto__";
   "toLocaleString"].

(** The answers of [getContactInfo]: [null], [undefined], a contact of the
    store, or a member inherited from [Object.prototype]. *)
Inductive ContactInfo :=
  | InfoNull
  | InfoUndefined
  | InfoContact (c : string)
  | InfoInherited (member : string).

(** [obj[name]] on a plain object whose own properties are [own]. *)
Definition property_read (own : gmap string string) (name : string)
  : ContactInfo :=
  match own !! name with
  | Some c => InfoContact c
  | None =>
      if bool_decide (name ∈ object_prototype_members)
      then InfoInherited name
      else InfoUndefined
  end.

(** [getContactInfo(jid)]: synchronous and without effects. *)
Definition getContactInfo (jid : option string) (s : HyperWaBot) : ContactInfo :=
  match jid, store s with
  | Some j, Some st =>
      if truthy jid then property_read (contacts st) j else InfoNull
  | _, _ => InfoNull
  end.

(** [shutdown()] *)
Definition shutdown : M unit :=
  log Info LShuttingDown ;;
  try_catch
    (b <- gets telegramBridge ;;
     match b with
     | Some b => ext (BridgeShutdown b)
     | None => ret tt
     end ;;
     sk <- gets sock ;;
     match sk with
     | Some h =>
         ext (SockEnd (sock_id h)) ;;
         modify (set_sock (Some {| sock_id := sock_id h; sock_ended := true |}))
     | None => ret tt
     end ;;
     log Info LShutdownComplete)
    (λ e, log Error (LShutdownError e)).

(** ** The event router: the callback given to [sock.ev.process] *)

(** [this.sock.profilePictureUrl(id).catch(() => null)]: the promise's
    rejection resolves to [null]; the read of [this.sock] is outside it. *)
Definition profilePictureUrl_or_null (id : string) : M (option string) :=
  h <- the_sock ;;
  try_catch
    (ext (ProfilePictureUrl (sock_id h) id) ;;
     n <- clock ;;
     ask (λ W _, pictureUrl W n))
    (λ _, ret None).

Definition on_connection_update (b : EventBatch) : M unit :=
  match ev_connection_update b with
  | Some u => handleConnectionUpdate u
  | None => ret tt
  end.

Definition on_creds_update (b : EventBatch) : M unit :=
  match ev_creds_update b with
  | Some _ => ext SaveCreds
  | None => ret tt
  end.

Definition on_messages_upsert (b : EventBatch) : M unit :=
  match ev_messages_upsert b with
  | Some p =>
      mh <- gets messageHandler ;;
      match mh with
      | None => throw (TypeError "messageHandler")
      | Some _ => ext (HandleMessages p)
      end
  | None => ret tt
  end.

Definition on_messages_update (b : EventBatch) : M unit :=
  match ev_messages_update b with
  | Some p => log Debug (LMessagesUpdated (length p))
  | None => ret tt
  end.

Definition on_message_receipt_update (b : EventBatch) : M unit :=
  match ev_message_receipt_update b with
  | Some _ => log Debug LReceiptUpdated
  | None => ret tt
  end.

Definition on_messages_reaction (b : EventBatch) : M unit :=
  match ev_messages_reaction b with
  | Some _ => log Debug LReaction
  | None => ret tt
  end.

Definition on_presence_update (b : EventBatch) : M unit :=
  match ev_presence_update b with
  | Some _ => log Debug LPresence
  | None => ret tt
  end.

Definition on_chats_update (b : EventBatch) : M unit :=
  match ev_chats_update b with
  | Some p => log Debug (LChatsUpdated (length p))
  | None => ret tt
  end.

Definition on_chats_delete (b : EventBatch) : M unit :=
  match ev_chats_delete b with
  | Some p => log Debug (LChatsDeleted (length p))
  | None => ret tt
  end.

Definition on_contact_update (c : ContactUpdate) : M unit :=
  match imgUrl c with
  | ImgUndefined => ret tt
  | ImgNull => ret tt
  | ImgString _ =>
      newUrl <- profilePictureUrl_or_null (contact_id c) ;;
      when (truthy newUrl)
        (log Debug (LNewProfilePic (contact_id c) (default "" newUrl)))
  end.

Definition on_contacts_update (b : EventBatch) : M unit :=
  match ev_contacts_update b with
  | Some cs => for_of cs on_contact_update
  | None => ret tt
  end.

Definition on_contacts_upsert (b : EventBatch) : M unit :=
  match ev_contacts_upsert b with
  | Some p => log Debug (LNewContacts (length p))
  | None => ret tt
  end.

Definition on_call (b : EventBatch) : M unit :=
  match ev_call b with
  | Some calls =>
      log Info LCallReceived ;;
      br <- gets telegramBridge ;;
      match br with
      | Some br => for_of calls (λ call, ext (HandleCallNotification br call))
      | None => ret tt
      end
  | None => ret tt
  end.

Definition on_messaging_history_set (b : EventBatch) : M unit :=
  match ev_messaging_history_set b with
  | Some h =>
      log Info (LHistory (length (hs_chats h)) (length (hs_contacts h))
                         (length (hs_messages h)))
  | None => ret tt
  end.

Definition on_labels_association (b : EventBatch) : M unit :=
  match ev_labels_association b with
  | Some _ => log Debug LLabelAssociation
  | None => ret tt
  end.

Definition on_labels_edit (b : EventBatch) : M unit :=
  match ev_labels_edit b with
  | Some _ => log Debug LLabelEdited
  | None => ret tt
  end.

(** The body of the callback: fifteen [if (events[kind]) { ... }] in a row,
    with no [try] around any of them. *)
Definition process_batch (b : EventBatch) : M unit :=
  on_connection_update b ;;
  on_creds_update b ;;
  on_messages_upsert b ;;
  on_messages_update b ;;
  on_message_receipt_update b ;;
  on_messages_reaction b ;;
  on_presence_update b ;;
  on_chats_update b ;;
  on_chats_delete b ;;
  on_contacts_update b ;;
  on_contacts_upsert b ;;
  on_call b ;;
  on_messaging_history_set b ;;
  on_labels_association b ;;
  on_labels_edit b.

(** The event kinds, in the order the callback tests them. *)
Inductive Kind :=
  | KConnectionUpdate | KCredsUpdate | KMessagesUpsert | KMessagesUpdate
  | KMessageReceiptUpdate | KMessagesReaction | KPresenceUpdate
  | KChatsUpdate | KChatsDelete | KContactsUpdate | KContactsUpsert
  | KCall | KMessagingHistorySet | KLabelsAssociation | KLabelsEdit.

Definition kinds : list Kind :=
  [KConnectionUpdate; KCredsUpdate; KMessagesUpsert; KMessagesUpdate;
   KMessageReceiptUpdate; KMessagesReaction; KPresenceUpdate;
   KChatsUpdate; KChatsDelete; KContactsUpdate; KContactsUpsert;
   KCall; KMessagingHistorySet; KLabelsAssociation; KLabelsEdit].

Definition Kind_eqb (k1 k2 : Kind) : bool :=
  match k1, k2 with
  | KConnectionUpdate, KConnectionUpdate | KCredsUpdate, KCredsUpdate
  | KMessagesUpsert, KMessagesUpsert | KMessagesUpdate, KMessagesUpdate
  | KMessageReceiptUpdate, KMessageReceiptUpdate
  | KMessagesReaction, KMessagesReaction | KPresenceUpdate, KPresenceUpdate
  | KChatsUpdate, KChatsUpdate | KChatsDelete, KChatsDelete
  | KContactsUpdate, KContactsUpdate | KContactsUpsert, KContactsUpsert
  | KCall, KCall | KMessagingHistorySet, KMessagingHistorySet
  | KLabelsAssociation, KLabelsAssociation | KLabelsEdit, KLabelsEdit => true
  | _, _ => false
  end.

(** Whether a batch carries a kind. *)
Definition present (k : Kind) (b : EventBatch) : bool :=
  match k with
  | KConnectionUpdate => bool_decide (is_Some (ev_connection_update b))
  | KCredsUpdate => bool_decide (is_Some (ev_creds_update b))
  | KMessagesUpsert => bool_decide (is_Some (ev_messages_upsert b))
  | KMessagesUpdate => bool_decide (is_Some (ev_messages_update b))
  | KMessageReceiptUpdate => bool_decide (is_Some (ev_message_receipt_update b))
  | KMessagesReaction => bool_decide (is_Some (ev_messages_reaction b))
  | KPresenceUpdate => bool_decide (is_Some (ev_presence_update b))
  | KChatsUpdate => bool_decide (is_Some (ev_chats_update b))
  | KChatsDelete => bool_decide (is_Some (ev_chats_delete b))
  | KContactsUpdate => bool_decide (is_Some (ev_contacts_update b))
  | KContactsUpsert => bool_decide (is_Some (ev_contacts_upsert b))
  | KCall => bool_decide (is_Some (ev_call b))
  | KMessagingHistorySet => bool_decide (is_Some (ev_messaging_history_set b))
  | KLabelsAssociation => bool_decide (is_Some (ev_labels_association b))
  | KLabelsEdit => bool_decide (is_Some (ev_labels_edit b))
  end.

(** The handler of one kind: the body of its [if]. *)
Definition dispatch (k : Kind) (b : EventBatch) : M unit :=
  match k with
  | KConnectionUpdate => on_connection_update b
  | KCredsUpdate => on_creds_update b
  | KMessagesUpsert => on_messages_upsert b
  | KMessagesUpdate => on_messages_update b
  | KMessageReceiptUpdate => on_message_receipt_update b
  | KMessagesReaction => on_messages_reaction b
  | KPresenceUpdate => on_presence_update b
  | KChatsUpdate => on_chats_update b
  | KChatsDelete => on_chats_delete b
  | KContactsUpdate => on_contacts_update b
  | KContactsUpsert => on_contacts_upsert b
  | KCall => on_call b
  | KMessagingHistorySet => on_messaging_history_set b
  | KLabelsAssociation => on_labels_association b
  | KLabelsEdit => on_labels_edit b
  end.

(** The handlers of a list of kinds, one after the other. *)
Definition run_kinds (ks : list Kind) (b : EventBatch) : M unit :=
  for_of ks (λ k, dispatch k b).

(** The kinds the callback tests before [k]. *)
Fixpoint kinds_before_in (ks : list Kind) (k : Kind) : list Kind :=
  match ks with
  | [] => []
  | k' :: ks' => if Kind_eqb k' k then [] else k' :: kinds_before_in ks' k
  end.

Definition kinds_before (k : Kind) : list Kind := kinds_before_in kinds k.

(** ** A run of the process *)

(** What happens to the object during a process lifetime: its public
    methods are called and the transport delivers batches to the callback.
    A callback or method that throws ends that call only: the transport
    does not look at what the callback answers, and the next operation
    finds the object as the failed one left it. *)
Inductive Op :=
  | OpInitialize
  | OpStartConnection
  | OpBatch (b : EventBatch)
  | OpConnectionUpdate (u : ConnUpdate)
  | OpGetMessage (remoteJid id : string)
  | OpSendMessage (jid content : string)
  | OpShutdown.

Definition void {A} (m : M A) : M unit := λ W n s,
  match m W n s with
  | (Ret _, s1, t1) => (Ret tt, s1, t1)
  | (Throw e, s1, t1) => (Throw e, s1, t1)
  end.

Definition perform (o : Op) : M unit :=
  match o with
  | OpInitialize => initialize
  | OpStartConnection => startConnection
  | OpBatch b => process_batch b
  | OpConnectionUpdate u => handleConnectionUpdate u
  | OpGetMessage j i => void (getMessage j i)
  | OpSendMessage j c => sendMessage j c
  | OpShutdown => shutdown
  end.

(** The state and the effects after a list of operations, started at clock
    [n] in state [s], each operation followed to its end before the next
    one starts. The transport does not wait for the callback of a batch
    before it delivers the next one, so in the process two callbacks can
    also overlap at an [await]; such schedules are outside [run], and what
    is proved of a run below is proved of the sequential schedules. *)
Fixpoint run (W : World) (ops : list Op) (n : nat) (s : HyperWaBot)
  : HyperWaBot * list Event :=
  match ops with
  | [] => (s, [])
  | o :: ops' =>
      match perform o W n s with
      | (_, s1, t1) =>
          match run W ops' (n + length t1) s1 with
          | (s2, t2) => (s2, t1 ++ t2)
          end
      end
  end.

(** ** Observations on a trace, and the properties the claims talk about *)

(** A connection attempt: every call of [startConnection] loads the auth
    state first, through exactly one of the two providers. *)
Definition is_attempt (e : Event) : bool :=
  match e with
  | ECall UseMongoAuthState _ | ECall UseMultiFileAuthState _ => true
  | _ => false
  end.

(** A notification to the users of the bridge. *)
Definition is_notice (e : Event) : bool :=
  match e with
  | ECall (SendToAllUsers _ _) _ => true
  | _ => false
  end.

(** A bridge that was constructed: [new TelegramBridge(this)] returned. *)
Definition is_bridge_new (e : Event) : bool :=
  match e with
  | ECall NewTelegramBridge None => true
  | _ => false
  end.

(** A call of [telegramBridge.initialize()], whatever its outcome. *)
Definition is_bridge_init (e : Event) : bool :=
  match e with
  | ECall (BridgeInitialize _) _ => true
  | _ => false
  end.

Definition is_bridge_setup (e : Event) : bool :=
  match e with
  | ECall (BridgeSetupWhatsAppHandlers _) _ => true
  | _ => false
  end.

(** One of the three sync steps run on the bridge after an open. *)
Definition is_sync (e : Event) : bool :=
  match e with
  | ECall (BridgeSyncContacts _) _ | ECall (BridgeUpdateTopicNames _) _
  | ECall (BridgeSendStartMessage _) _ => true
  | _ => false
  end.

(** How many effects of a trace satisfy [p]. *)
Definition count (p : Event → bool) (t : list Event) : nat :=
  length (filter (λ e, p e = true) t).

Definition attempts : list Event → nat := count is_attempt.

Definition notices : list Event → nat := count is_notice.

Definition constructions : list Event → nat := count is_bridge_new.

Definition initializations : list Event → nat := count is_bridge_init.

(** The timers of a trace, in order. *)
Definition delays (t : list Event) : list Z :=
  omap (λ e, match e with EDelay ms => Some ms | _ => None end) t.

(** A relation between the state a method starts in, the effects it
    produces and the state it ends in; [keeps R m] when it holds of [m]
    in every world, and [Composes R] when it holds of doing nothing and of
    doing two things in a row. *)
Definition Rel := HyperWaBot → list Event → HyperWaBot → Prop.

Definition keeps {A} (R : Rel) (m : M A) : Prop :=
  ∀ W n s, R s (trace (m W n s)) (final (m W n s)).

Class Composes (R : Rel) := {
  rel_nil : ∀ s, R s [] s;
  rel_app : ∀ s t1 s1 t2 s2, R s t1 s1 → R s1 t2 s2 → R s (t1 ++ t2) s2
}.

(** [frame P Q]: every effect satisfies [P] and the end state is
    [Q]-related to the start state. *)
Definition frame (P : Event → bool) (Q : relation HyperWaBot) : Rel :=
  λ s t s', Forall (λ e, P e = true) t ∧ Q s s'.

(** [bridge_once]: a step that starts with a bridge keeps it and neither
    constructs nor initializes one; a step that starts without a bridge
    constructs one exactly when it ends with one, and initializes no more
    bridges than it constructs. *)
Definition bridge_once : Rel := λ s t s',
  match telegramBridge s with
  | Some b =>
      telegramBridge s' = Some b ∧ constructions t = 0 ∧ initializations t = 0
  | None =>
      constructions t = (if telegramBridge s' is Some _ then 1 else 0) ∧
      (initializations t ≤ constructions t)%nat
  end.

(** The supervisor's bookkeeping is the same in both states: they differ
    at most in [sock], [store], [db] and [isInitialized]. *)
Definition same_supervision : relation HyperWaBot := λ s s',
  retryCount s' = retryCount s ∧ maxRetries s' = maxRetries s ∧
  telegramBridge s' = telegramBridge s ∧
  messageHandler s' = messageHandler s ∧ moduleLoader s' = moduleLoader s.

(** Effects that are no attempt, no timer, no notice and no construction
    or initialization of a bridge. *)
Definition quiet (e : Event) : bool :=
  match e with
  | EDelay _ => false
  | _ => negb (is_attempt e || is_notice e || is_bridge_new e || is_bridge_init e
               || is_bridge_setup e || is_sync e)
  end.

(** The same, attempts allowed. *)
Definition quiet_but_attempts (e : Event) : bool :=
  match e with
  | EDelay _ => false
  | _ => negb (is_notice e || is_bridge_new e || is_bridge_init e
               || is_bridge_setup e || is_sync e)
  end.

(** The disconnect cause is an explicit logout: [lastDisconnect] carries a
    Boom error whose [statusCode] is the logged-out code. *)
Definition logged_out_cause (W : World) (u : ConnUpdate) : Prop :=
  ∃ o, lastDisconnect u = Some {| error := Some (Boom (Some o)) |} ∧
       statusCode o = Some (loggedOut W).

(** The handlers after the first one. *)
Definition after_connection_update (b : EventBatch) : M unit :=
  on_creds_update b ;;
  on_messages_upsert b ;;
  on_messages_update b ;;
  on_message_receipt_update b ;;
  on_messages_reaction b ;;
  on_presence_update b ;;
  on_chats_update b ;;
  on_chats_delete b ;;
  on_contacts_update b ;;
  on_contacts_upsert b ;;
  on_call b ;;
  on_messaging_history_set b ;;
  on_labels_association b ;;
  on_labels_edit b.

(** A batch whose connection-state update is a transient close: the
    connection closed, no QR code, and the cause is no explicit logout. *)
Definition transient_close (W : World) (b : EventBatch) : Prop :=
  ∃ u, ev_connection_update b = Some u ∧ connection u = Some Close ∧
       truthy (qr u) = false ∧ ¬ logged_out_cause W u.

(** The callback gets as far as the handler of [k]: every handler tested
    before it returned. *)
Definition reached (W : World) (n : nat) (s : HyperWaBot) (b : EventBatch)
    (k : Kind) : Prop :=
  result (run_kinds (kinds_before k) b W n s) = Ret tt.

(** What the handler of [k] answers where the callback runs it: after the
    handlers tested before it. *)
Definition handler_result (W : World) (n : nat) (s : HyperWaBot)
    (b : EventBatch) (k : Kind) : Res unit :=
  result (dispatch k b W
            (n + length (trace (run_kinds (kinds_before k) b W n s)))
            (final (run_kinds (kinds_before k) b W n s))).

(** Per-kind dispatch would be isolated if a failure of the handler of one
    kind left the handler of every other kind of the batch running. *)
Definition isolated_dispatch (W : World) (n : nat) (s : HyperWaBot)
    (b : EventBatch) : Prop :=
  ∀ k1 k2 e, k1 ≠ k2 → present k1 b = true → present k2 b = true →
    reached W n s b k1 → handler_result W n s b k1 = Throw e →
    reached W n s b k2.

(** The credentials would be persisted first if, in a batch, the handler of
    every other kind present started only after [saveCreds] had returned. *)
Definition creds_persisted_first (W : World) (n : nat) (s : HyperWaBot)
    (b : EventBatch) : Prop :=
  ∀ k, k ≠ KCredsUpdate → present k b = true → reached W n s b k →
    In (ECall SaveCreds None) (trace (run_kinds (kinds_before k) b W n s)).

(** Teardown would be best effort if the handle were closed whatever the
    bridge does: a [sock.end()] call whenever there is a handle. *)
Definition best_effort_shutdown (W : World) (n : nat) (s : HyperWaBot) : Prop :=
  ∀ h, sock s = Some h →
    ∃ r, In (ECall (SockEnd (sock_id h)) r) (trace (shutdown W n s)).

(** No connection handle is open: there is none, or it was ended. *)
Definition no_open_handle (s : HyperWaBot) : Prop :=
  match sock s with
  | Some h => sock_ended h = true
  | None => True
  end.

(** [sendMessage] would be guarded if, with no open handle, it failed with
    the not-connected error without forwarding to any handle. *)
Definition send_guarded (W : World) (n : nat) (s : HyperWaBot)
    (jid content : string) : Prop :=
  no_open_handle s →
  result (sendMessage jid content W n s) = Throw SocketNotInitialized ∧
  ∀ h r, ¬ In (ECall (SockSendMessage h jid content) r)
              (trace (sendMessage jid content W n s)).

(** The object holds a new handle and an empty store bound to it, and its
    two lookups find nothing the store would have cached. [getMessage]
    makes its one [loadMessage] call and answers [undefined], unless that
    call rejects; it never answers a message. [getContactInfo] answers what
    a property read on an empty object answers: [null] for a falsy jid, the
    inherited member for a name of [Object.prototype], [undefined]
    otherwise; it never answers a contact. *)
Definition fresh_session (s : HyperWaBot) : Prop :=
  ∃ h, sock s = Some {| sock_id := h; sock_ended := false |} ∧
       store s = Some {| contacts := ∅; messages := ∅; bound := Some h |} ∧
       (∀ remoteJid id W n,
          getMessage remoteJid id W n s =
            (match fails W n (StoreLoadMessage remoteJid id) with
             | None => Ret None
             | Some e => Throw e
             end, s,
             [ECall (StoreLoadMessage remoteJid id)
                    (fails W n (StoreLoadMessage remoteJid id))])) ∧
       (∀ jid, getContactInfo jid s
               = if truthy jid then property_read ∅ (default "" jid)
                 else InfoNull) ∧
       (∀ jid c, getContactInfo jid s ≠ InfoContact c).

(** ** Concrete worlds, objects and events *)

(** The close event with no [lastDisconnect] at all. *)
Definition close_unknown : ConnUpdate :=
  {| connection := Some Close; lastDisconnect := None; qr := None |}.

(** The close event of an explicit logout, for the logged-out code [c]. *)
Definition close_logged_out (c : Z) : ConnUpdate :=
  {| connection := Some Close;
     lastDisconnect :=
       Some {| error := Some (Boom (Some {| statusCode := Some c |})) |};
     qr := None |}.

(** A world in which no collaborator fails; file-based auth, bridge
    enabled, 401 as the logged-out code. *)
Definition calm : World :=
  {| fails := λ _ _, None; pictureUrl := λ _, None;
     cfg_useMongoAuth := λ _, false; cfg_telegram_enabled := λ _, true;
     loggedOut := 401 |}.

(** A batch that carries only a connection-state update. *)
Definition batch_of_update (u : ConnUpdate) : EventBatch :=
  {| ev_connection_update := Some u; ev_creds_update := None;
     ev_messages_upsert := None; ev_messages_update := None;
     ev_message_receipt_update := None; ev_messages_reaction := None;
     ev_presence_update := None; ev_chats_update := None;
     ev_chats_delete := None; ev_contacts_update := None;
     ev_contacts_upsert := None; ev_call := None;
     ev_messaging_history_set := None; ev_labels_association := None;
     ev_labels_edit := None |}.

(** An open event. *)
Definition open_update : ConnUpdate :=
  {| connection := Some Open; lastDisconnect := None; qr := None |}.

(** The object as [initialize] leaves it in the calm world. *)
Definition initialized_bot : HyperWaBot :=
  {| sock := Some {| sock_id := 11; sock_ended := false |};
     store := Some {| contacts := ∅; messages := ∅; bound := Some 11 |};
     messageHandler := Some tt; moduleLoader := Some tt;
     telegramBridge := None; db := Some tt; isInitialized := true;
     retryCount := 0; maxRetries := 5 |}.

(** A world in which the message handler fails, and a batch with incoming
    messages and a contact whose picture changed. *)
Definition messages_fail : World :=
  {| fails := λ _ c, match c with
                     | HandleMessages _ => Some (External 1)
                     | _ => None
                     end;
     pictureUrl := λ _, None;
     cfg_useMongoAuth := λ _, false; cfg_telegram_enabled := λ _, true;
     loggedOut := 401 |}.

Definition messages_and_contacts : EventBatch :=
  {| ev_connection_update := None; ev_creds_update := None;
     ev_messages_upsert := Some ["m1"]; ev_messages_update := None;
     ev_message_receipt_update := None; ev_messages_reaction := None;
     ev_presence_update := None; ev_chats_update := None;
     ev_chats_delete := None;
     ev_contacts_update :=
       Some [{| contact_id := "alice@s.whatsapp.net";
                imgUrl := ImgString "changed" |}];
     ev_contacts_upsert := None; ev_call := None;
     ev_messaging_history_set := None; ev_labels_association := None;
     ev_labels_edit := None |}.

(** A batch with a credential update and incoming messages. *)
Definition creds_and_messages : EventBatch :=
  {| ev_connection_update := None; ev_creds_update := Some [];
     ev_messages_upsert := Some ["m1"]; ev_messages_update := None;
     ev_message_receipt_update := None; ev_messages_reaction := None;
     ev_presence_update := None; ev_chats_update := None;
     ev_chats_delete := None; ev_contacts_update := None;
     ev_contacts_upsert := None; ev_call := None;
     ev_messaging_history_set := None; ev_labels_association := None;
     ev_labels_edit := None |}.

(** A batch with a connection-state update and a credential update. *)
Definition connecting_and_creds : EventBatch :=
  {| ev_connection_update :=
       Some {| connection := Some Connecting; lastDisconnect := None;
               qr := None |};
     ev_creds_update := Some [];
     ev_messages_upsert := None; ev_messages_update := None;
     ev_message_receipt_update := None; ev_messages_reaction := None;
     ev_presence_update := None; ev_chats_update := None;
     ev_chats_delete := None; ev_contacts_update := None;
     ev_contacts_upsert := None; ev_call := None;
     ev_messaging_history_set := None; ev_labels_association := None;
     ev_labels_edit := None |}.

(** A world in which shutting the bridge down fails, and an object with a
    bridge and a handle. *)
Definition bridge_shutdown_fails : World :=
  {| fails := λ _ c, match c with
                     | BridgeShutdown _ => Some (External 2)
                     | _ => None
                     end;
     pictureUrl := λ _, None;
     cfg_useMongoAuth := λ _, false; cfg_telegram_enabled := λ _, true;
     loggedOut := 401 |}.

Definition bridged_bot : HyperWaBot := set_telegramBridge (Some 19) initialized_bot.

(** The object after [initialize] and [shutdown] in the calm world: the
    handle is stored and ended. *)
Definition shut_down_bot : HyperWaBot :=
  (run calm [OpInitialize; OpShutdown] 0 new_bot).1.

(** An object whose store remembers a contact and a message. *)
Definition remembering_bot : HyperWaBot :=
  set_store (Some {| contacts := {["alice@s.whatsapp.net" := "Alice"]};
                     messages := {[("alice@s.whatsapp.net", "m1")
                                   := {| message := Some "hi" |}]};
                     bound := Some 11 |})
            initialized_bot.

(** ** Further observations and relations *)

(** The end state still holds a handle if the start state did. *)
Definition handle_kept : relation HyperWaBot := λ s s',
  is_Some (sock s) → is_Some (sock s').

(** A timer that is the backoff of some attempt [k] in [1..mx]. *)
Definition backoff_timer (mx : Z) (e : Event) : Prop :=
  match e with
  | EDelay ms => ∃ k, (1 ≤ k ≤ mx)%Z ∧ ms = retryDelay k
  | _ => True
  end.

(** [retries_bounded]: [maxRetries] is not changed; if the counter starts
    within [0..maxRetries] it ends there, and every timer of the step is a
    backoff timer. *)
Definition retries_bounded : Rel := λ s t s',
  maxRetries s' = maxRetries s ∧
  ((0 ≤ retryCount s ≤ maxRetries s)%Z →
   (0 ≤ retryCount s' ≤ maxRetries s)%Z ∧ Forall (backoff_timer (maxRetries s)) t).

(** The two auth providers. *)
Definition is_mongo_auth (e : Event) : bool :=
  match e with
  | ECall UseMongoAuthState _ => true
  | _ => false
  end.

Definition is_file_auth (e : Event) : bool :=
  match e with
  | ECall UseMultiFileAuthState _ => true
  | _ => false
  end.

(** A lookup of a profile picture, and the log line of a new picture. *)
Definition is_lookup (e : Event) : bool :=
  match e with
  | ECall (ProfilePictureUrl _ _) _ => true
  | _ => false
  end.

Definition is_new_pic_log (e : Event) : bool :=
  match e with
  | ELog Debug (LNewProfilePic _ _) => true
  | _ => false
  end.

(** A lookup that resolved. *)
Definition is_lookup_done (e : Event) : bool :=
  match e with
  | ECall (ProfilePictureUrl _ _) None => true
  | _ => false
  end.

(** [typeof contact.imgUrl !== 'undefined'] and [contact.imgUrl !== null]. *)
Definition wants_lookup (c : ContactUpdate) : bool :=
  match imgUrl c with
  | ImgString _ => true
  | _ => false
  end.

(** The calls handed to [handleCallNotification], in order. *)
Definition forwarded_calls (t : list Event) : list string :=
  omap (λ e, match e with
             | ECall (HandleCallNotification _ call) _ => Some call
             | _ => None
             end) t.

(** Any call made on the bridge, its constructor included. *)
Definition is_bridge_call (e : Event) : bool :=
  match e with
  | ECall (HandleCallNotification _ _) _ | ECall (SendQRCode _ _) _
  | ECall (SendToAllUsers _ _) _ | ECall NewTelegramBridge _
  | ECall (BridgeInitialize _) _ | ECall (BridgeSetupWhatsAppHandlers _) _
  | ECall (BridgeSyncContacts _) _ | ECall (BridgeUpdateTopicNames _) _
  | ECall (BridgeSendStartMessage _) _ | ECall (BridgeShutdown _) _ => true
  | _ => false
  end.

(** [bridge_untouched]: a step that starts without a bridge ends without
    one and calls nothing on a bridge. *)
Definition bridge_untouched : Rel := λ s t s',
  telegramBridge s = None →
  telegramBridge s' = None ∧ Forall (λ e, is_bridge_call e = false) t.

(** [keeps] in one world. *)
Definition keeps_in {A} (W : World) (R : Rel) (m : M A) : Prop :=
  ∀ n s, R s (trace (m W n s)) (final (m W n s)).

(** A close event that also carries a QR code, a world in which the bridge
    cannot send the code, and a world without the bridge feature. *)
Definition close_with_qr : ConnUpdate :=
  {| connection := Some Close; lastDisconnect := None; qr := Some "2@code" |}.

Definition qr_send_fails : World :=
  {| fails := λ _ c, match c with
                     | SendQRCode _ _ => Some (External 3)
                     | _ => None
                     end;
     pictureUrl := λ _, None;
     cfg_useMongoAuth := λ _, false; cfg_telegram_enabled := λ _, true;
     loggedOut := 401 |}.

Definition no_telegram : World :=
  {| fails := λ _ _, None; pictureUrl := λ _, None;
     cfg_useMongoAuth := λ _, true; cfg_telegram_enabled := λ _, false;
     loggedOut := 401 |}.

(** A world in which [makeWASocket] fails, and one in which the bridge
    cannot be initialized. *)
Definition socket_fails : World :=
  {| fails := λ _ c, match c with
                     | MakeWASocket => Some (External 4)
                     | _ => None
                     end;
     pictureUrl := λ _, None;
     cfg_useMongoAuth := λ _, false; cfg_telegram_enabled := λ _, true;
     loggedOut := 401 |}.

Definition bridge_init_fails : World :=
  {| fails := λ _ c, match c with
                     | BridgeInitialize _ => Some (External 5)
                     | _ => None
                     end;
     pictureUrl := λ _, None;
     cfg_useMongoAuth := λ _, false; cfg_telegram_enabled := λ _, true;
     loggedOut := 401 |}.

(** A world in which the modules cannot be loaded. *)
Definition modules_fail : World :=
  {| fails := λ _ c, match c with
                     | LoadModules => Some (External 6)
                     | _ => None
                     end;
     pictureUrl := λ _, None;
     cfg_useMongoAuth := λ _, false; cfg_telegram_enabled := λ _, true;
     loggedOut := 401 |}.

(** A batch with three contact updates (picture changed, removed, not
    mentioned) and one with two calls. *)
Definition three_contacts : EventBatch :=
  {| ev_connection_update := None; ev_creds_update := None;
     ev_messages_upsert := None; ev_messages_update := None;
     ev_message_receipt_update := None; ev_messages_reaction := None;
     ev_presence_update := None; ev_chats_update := None;
     ev_chats_delete := None;
     ev_contacts_update :=
       Some [{| contact_id := "a@s.whatsapp.net"; imgUrl := ImgString "changed" |};
             {| contact_id := "b@s.whatsapp.net"; imgUrl := ImgNull |};
             {| contact_id := "c@s.whatsapp.net"; imgUrl := ImgUndefined |}];
     ev_contacts_upsert := None; ev_call := None;
     ev_messaging_history_set := None; ev_labels_association := None;
     ev_labels_edit := None |}.

Definition two_calls : EventBatch :=
  {| ev_connection_update := None; ev_creds_update := None;
     ev_messages_upsert := None; ev_messages_update := None;
     ev_message_receipt_update := None; ev_messages_reaction := None;
     ev_presence_update := None; ev_chats_update := None;
     ev_chats_delete := None; ev_contacts_update := None;
     ev_contacts_upsert := None; ev_call := Some ["call1"; "call2"];
     ev_messaging_history_set := None; ev_labels_association := None;
     ev_labels_edit := None |}.

(** ** Close and open events in a run, and what the spec says of them *)

(** The QR stage completes: there is no QR code to show, or showing it
    works (the bridge sends it, or the renderer is imported and draws it). *)
Definition qr_shown (W : World) (n : nat) (s : HyperWaBot) (u : ConnUpdate)
  : Prop :=
  truthy (qr u) = false ∨
  match telegramBridge s with
  | Some b => fails W (n + 1) (SendQRCode b (default "" (qr u))) = None
  | None => fails W (n + 1) ImportQrcodeTerminal = None ∧
            fails W (n + 2) (QRCodeGenerate (default "" (qr u))) = None
  end.

(** What the spec says of a close event: no reconnect after an explicit
    logout and, for every other cause, a reconnect, subject only to the
    retry ceiling. *)
Definition reconnects_unless_logged_out (W : World) (n : nat) (s : HyperWaBot)
    (u : ConnUpdate) : Prop :=
  connection u = Some Close →
  (logged_out_cause W u →
     attempts (trace (handleConnectionUpdate u W n s)) = 0) ∧
  (¬ logged_out_cause W u → (retryCount s < maxRetries s)%Z →
     attempts (trace (handleConnectionUpdate u W n s)) = 1).

(** What the spec says of the first retry: a transient close that arrives
    with [retryCount = 0] schedules one reconnect after 2000 ms and leaves
    [retryCount = 1]. *)
Definition first_retry_after_2000 (W : World) (n : nat) (s : HyperWaBot)
    (u : ConnUpdate) : Prop :=
  connection u = Some Close → ¬ logged_out_cause W u →
  retryCount s = 0%Z → maxRetries s = 5%Z →
  delays (trace (handleConnectionUpdate u W n s)) = [2000%Z] ∧
  attempts (trace (handleConnectionUpdate u W n s)) = 1 ∧
  retryCount (final (handleConnectionUpdate u W n s)) = 1%Z.

(** What the spec says of an open event: handling it leaves
    [retryCount = 0], whatever the counter was. *)
Definition open_resets (W : World) (n : nat) (s : HyperWaBot) (u : ConnUpdate)
  : Prop :=
  connection u = Some Open →
  retryCount (final (handleConnectionUpdate u W n s)) = 0%Z.

(** The connection-state update an operation delivers, if any. *)
Definition update_of (o : Op) : option ConnUpdate :=
  match o with
  | OpBatch b => ev_connection_update b
  | OpConnectionUpdate u => Some u
  | _ => None
  end.

(** An operation that delivers a transient close: a close without QR code
    whose cause is no explicit logout. *)
Definition transient_close_op (W : World) (o : Op) : bool :=
  match update_of o with
  | Some u =>
      match connection u with
      | Some Close => negb (truthy (qr u)) && shouldReconnect W u
      | _ => false
      end
  | None => false
  end.

(** An operation that may come between two closes without being an open:
    it delivers no open and no close, and it is no call of [initialize] or
    [startConnection]. A ['connecting'] update, an update that only carries
    a QR code, a batch of other kinds, [getMessage], [sendMessage] and
    [shutdown] are such operations. *)
Definition between_closes (o : Op) : bool :=
  match o with
  | OpInitialize | OpStartConnection => false
  | _ =>
      match update_of o with
      | Some u =>
          match connection u with
          | Some Open | Some Close => false
          | _ => true
          end
      | None => true
      end
  end.

(** The number of transient closes a list of operations delivers. *)
Definition closes (W : World) (ops : list Op) : nat :=
  length (filter (λ o, transient_close_op W o = true) ops).

(** An operation that starts no retry: if it delivers a close, the cause is
    an explicit logout. Everything else is allowed: opens, ['connecting']
    updates, QR codes, batches of other kinds and every method call. *)
Definition no_retry_op (W : World) (o : Op) : bool :=
  match update_of o with
  | Some u =>
      match connection u with
      | Some Close => negb (shouldReconnect W u)
      | _ => true
      end
  | None => true
  end.

(** [counter_at_rest]: [maxRetries] is not changed, and a counter that is 0
    stays 0. *)
Definition counter_at_rest : Rel := λ s _ s',
  maxRetries s' = maxRetries s ∧ (retryCount s = 0%Z → retryCount s' = 0%Z).




(** What the handler of [k] does where the callback runs it: after the
    handlers tested before it. *)
Definition handler_trace (W : World) (n : nat) (s : HyperWaBot)
    (b : EventBatch) (k : Kind) : list Event :=
  trace (dispatch k b W
           (n + length (trace (run_kinds (kinds_before k) b W n s)))
           (final (run_kinds (kinds_before k) b W n s))).

(** The callback handles [k]: it gets as far as the handler of [k], and
    what the callback does consists of what the handlers tested before [k]
    do, then what the handler of [k] does, then the rest. *)
Definition handled (W : World) (n : nat) (s : HyperWaBot) (b : EventBatch)
    (k : Kind) : Prop :=
  reached W n s b k ∧
  ∃ t, trace (process_batch b W n s) =
         trace (run_kinds (kinds_before k) b W n s) ++
         handler_trace W n s b k ++ t.

(** A call of [saveCreds], whatever its outcome. *)
Definition is_save_creds (e : Event) : bool :=
  match e with
  | ECall SaveCreds _ => true
  | _ => false
  end.

(** The kinds the callback tests after the credentials. *)
Definition kinds_after_creds : list Kind := drop 2 kinds.

(** A ['connecting'] update, an open that also carries a QR code, and a
    batch with a transient close, a credential update and incoming
    messages. *)
Definition connecting_update : ConnUpdate :=
  {| connection := Some Connecting; lastDisconnect := None; qr := None |}.

Definition open_with_qr : ConnUpdate :=
  {| connection := Some Open; lastDisconnect := None; qr := Some "2@code" |}.

Definition close_creds_messages : EventBatch :=
  {| ev_connection_update := Some close_unknown; ev_creds_update := Some [];
     ev_messages_upsert := Some ["m1"]; ev_messages_update := None;
     ev_message_receipt_update := None; ev_messages_reaction := None;
     ev_presence_update := None; ev_chats_update := None;
     ev_chats_delete := None; ev_contacts_update := None;
     ev_contacts_upsert := None; ev_call := None;
     ev_messaging_history_set := None; ev_labels_association := None;
     ev_labels_edit := None |}.

(** The run of a process that never gets through: five times a transient
    close, each followed by the ['connecting'] update of the reconnect. *)
Definition five_failed_reconnects : list Op :=
  concat (replicate 5 [OpBatch (batch_of_update close_unknown);
                        OpBatch (batch_of_update connecting_update)]).

(** * Lemmas and theorems *)

(** ** Observations on a trace *)

Lemma count_nil p : count p [] = 0.
Proof. reflexivity. Qed.

Lemma count_app p t1 t2 : count p (t1 ++ t2) = count p t1 + count p t2.
Proof. unfold count. by rewrite filter_app, length_app. Qed.

Lemma count_cons p e t :
  count p (e :: t) = (if p e then 1 else 0) + count p t.
Proof.
  unfold count. destruct (p e) eqn:E.
  - rewrite filter_cons_True by done. reflexivity.
  - rewrite filter_cons_False by (rewrite E; discriminate). reflexivity.
Qed.

Lemma delays_app t1 t2 : delays (t1 ++ t2) = delays t1 ++ delays t2.
Proof. apply omap_app. Qed.

(** ** Running a composition *)

Section Running.
Context {A B : Type}.
Variables (W : World) (n : nat) (s : HyperWaBot).

Lemma bind_returns (m : M A) (f : A → M B) a s1 t1 :
  m W n s = (Ret a, s1, t1) →
  bind m f W n s =
    (result (f a W (n + length t1) s1), final (f a W (n + length t1) s1),
     t1 ++ trace (f a W (n + length t1) s1)).
Proof.
  intros E. unfold bind. rewrite E.
  by destruct (f a W (n + length t1) s1) as [[r s2] t2].
Qed.

Lemma bind_throws (m : M A) (f : A → M B) e s1 t1 :
  m W n s = (Throw e, s1, t1) → bind m f W n s = (Throw e, s1, t1).
Proof. intros E. unfold bind. by rewrite E. Qed.

(** A composition that returned: its first part returned, and what the
    first part did is a prefix of the whole. *)
Lemma bind_ret_inv (m : M A) (f : A → M B) b :
  result (bind m f W n s) = Ret b →
  ∃ a, result (m W n s) = Ret a ∧
       bind m f W n s =
         (result (f a W (n + length (trace (m W n s))) (final (m W n s))),
          final (f a W (n + length (trace (m W n s))) (final (m W n s))),
          trace (m W n s) ++
          trace (f a W (n + length (trace (m W n s))) (final (m W n s)))).
Proof.
  destruct (m W n s) as [[[a|e] s1] t1] eqn:E; intros H.
  - exists a. split; [done|]. by rewrite (bind_returns _ _ _ _ _ E).
  - rewrite (bind_throws _ _ _ _ _ E) in H. discriminate.
Qed.

End Running.

Lemma ext_outcome W n s c :
  ext c W n s =
    (match fails W n c with None => Ret tt | Some e => Throw e end, s,
     [ECall c (fails W n c)]).
Proof. unfold ext. by destruct (fails W n c). Qed.

Lemma triple_eta {A} (x : Res A * HyperWaBot * list Event) :
  x = (result x, final x, trace x).
Proof. by destruct x as [[??]?]. Qed.

(** ** Relations kept by every step of a method

    [keeps R m]: whatever the world, the start state [s], the effects [t]
    and the end state [s'] of [m] are related by [R]. A relation that
    holds of doing nothing and composes along a sequence is kept by a method
    as soon as all its primitive steps keep it. *)

Section Keeps.
Context (R : Rel) `{!Composes R}.

Lemma keeps_ret {A} (a : A) : keeps R (ret a).
Proof. intros W n s. apply rel_nil. Qed.

Lemma keeps_throw {A} e : keeps R (@throw A e).
Proof. intros W n s. apply rel_nil. Qed.

Lemma keeps_gets {A} (f : HyperWaBot → A) : keeps R (gets f).
Proof. intros W n s. apply rel_nil. Qed.

Lemma keeps_ask {A} (f : World → nat → A) : keeps R (ask f).
Proof. intros W n s. apply rel_nil. Qed.

Lemma keeps_clock : keeps R clock.
Proof. intros W n s. apply rel_nil. Qed.

Lemma keeps_bind {A B} (m : M A) (f : A → M B) :
  keeps R m → (∀ a, keeps R (f a)) → keeps R (bind m f).
Proof.
  intros Hm Hf W n s. specialize (Hm W n s).
  destruct (m W n s) as [[[a|e] s1] t1] eqn:E.
  - rewrite (bind_returns _ _ _ _ _ _ _ _ E). cbn.
    eapply rel_app; [exact Hm|]. apply Hf.
  - rewrite (bind_throws _ _ _ _ _ _ _ _ E). exact Hm.
Qed.

Lemma keeps_try_catch {A} (m : M A) (h : Err → M A) :
  keeps R m → (∀ e, keeps R (h e)) → keeps R (try_catch m h).
Proof.
  intros Hm Hh W n s. specialize (Hm W n s). unfold try_catch.
  destruct (m W n s) as [[[a|e] s1] t1] eqn:E; [exact Hm|].
  specialize (Hh e W (n + length t1) s1).
  destruct (h e W (n + length t1) s1) as [[r s2] t2].
  eapply rel_app; [exact Hm|exact Hh].
Qed.

Lemma keeps_when b (m : M unit) : keeps R m → keeps R (when b m).
Proof. destruct b; [done|]. intros _. apply keeps_ret. Qed.

Lemma keeps_for_of {A} (l : list A) (f : A → M unit) :
  (∀ a, keeps R (f a)) → keeps R (for_of l f).
Proof.
  intros Hf. induction l as [|a l IH]; [apply keeps_ret|].
  apply keeps_bind; [apply Hf|]. intros _. exact IH.
Qed.

Lemma keeps_void {A} (m : M A) : keeps R m → keeps R (void m).
Proof.
  intros Hm W n s. specialize (Hm W n s). unfold void.
  by destruct (m W n s) as [[[a|e] s1] t1].
Qed.

(** A relation kept by every operation of a run is kept by the run. *)
Lemma run_keeps W ops n s :
  Forall (λ o, keeps R (perform o)) ops → R s (run W ops n s).2 (run W ops n s).1.
Proof.
  intros Hp. revert n s. induction Hp as [|o ops Ho _ IH]; intros n s.
  - apply rel_nil.
  - cbn [run]. specialize (Ho W n s).
    destruct (perform o W n s) as [[r s1] t1]. specialize (IH (n + length t1) s1).
    destruct (run W ops (n + length t1) s1) as [s2 t2]. cbn in *.
    eapply rel_app; [exact Ho|exact IH].
Qed.
End Keeps.

(** Two families of relations that compose. *)

#[global] Instance frame_composes P Q `{!PreOrder Q} : Composes (frame P Q).
Proof.
  split.
  - intros s. split; [constructor|reflexivity].
  - intros s t1 s1 t2 s2 [H1 Q1] [H2 Q2]. split.
    + apply Forall_app; auto.
    + by transitivity s1.
Qed.

#[global] Instance bridge_once_composes : Composes bridge_once.
Proof.
  split.
  - intros s. unfold bridge_once. destruct (telegramBridge s) eqn:E;
      rewrite ?E; cbn; auto.
  - intros s t1 s1 t2 s2. unfold bridge_once, constructions, initializations.
    rewrite !count_app.
    destruct (telegramBridge s) as [b|].
    + intros (E1 & C1 & I1). rewrite E1. intros (E2 & C2 & I2).
      rewrite C1, C2, I1, I2. auto.
    + intros (C1 & I1). destruct (telegramBridge s1) as [b1|].
      * intros (E2 & C2 & I2). rewrite E2, C2, I2. lia.
      * intros (C2 & I2). lia.
Qed.

#[global] Instance same_supervision_preorder : PreOrder same_supervision.
Proof.
  split.
  - intros s. by repeat split.
  - intros s1 s2 s3 (?&?&?&?&?) (?&?&?&?&?). repeat split; congruence.
Qed.

Lemma count_none p t : Forall (λ e, p e = false) t → count p t = 0.
Proof.
  induction 1 as [|e t He _ IH]; [done|].
  rewrite count_cons, He. exact IH.
Qed.

Lemma delays_none t :
  Forall (λ e, match e with EDelay _ => False | _ => True end) t → delays t = [].
Proof.
  induction 1 as [|e t He _ IH]; [done|].
  destruct e; cbn; try exact IH. destruct He.
Qed.

Lemma quiet_but_attempts_trace t :
  Forall (λ e, quiet_but_attempts e = true) t →
  notices t = 0 ∧ constructions t = 0 ∧ initializations t = 0 ∧ delays t = [].
Proof.
  intros H. repeat split; try apply count_none; try apply delays_none;
    (eapply Forall_impl; [exact H|]); intros [l m|ms|c [e|]]; cbn; try done;
    destruct c; cbn; done.
Qed.

Lemma quiet_trace t :
  Forall (λ e, quiet e = true) t →
  attempts t = 0 ∧ notices t = 0 ∧ constructions t = 0 ∧
  initializations t = 0 ∧ delays t = [].
Proof.
  intros H. repeat split; try apply count_none; try apply delays_none;
    (eapply Forall_impl; [exact H|]); intros [l m|ms|c [e|]]; cbn; try done;
    destruct c; cbn; done.
Qed.

(** *** Automation: walk a method down to its primitive steps *)

Ltac keeps_leaf :=
  let W := fresh "W" in let n := fresh "n" in let s := fresh "s" in
  intros W n s;
  unfold log, delay, ext, modify;
  repeat match goal with
         | |- context [fails ?W ?n ?c] => destruct (fails W n c)
         end;
  cbn;
  first
    [ split; [repeat constructor | first [reflexivity | by repeat split]]
    | unfold bridge_once; cbn;
      match goal with
      | |- context [telegramBridge ?s] => destruct (telegramBridge s); cbn; by auto
      end ].

Ltac keeps_walk :=
  repeat first
    [ assumption
    | match goal with H : ∀ _, keeps _ _ |- _ => apply H end
    | apply keeps_ret; typeclasses eauto
    | apply keeps_throw; typeclasses eauto
    | apply keeps_gets; typeclasses eauto
    | apply keeps_ask; typeclasses eauto
    | apply keeps_clock; typeclasses eauto
    | apply keeps_bind; [typeclasses eauto| |intros ?]
    | apply keeps_try_catch; [typeclasses eauto| |intros ?]
    | apply keeps_when; [typeclasses eauto|]
    | apply keeps_for_of; [typeclasses eauto|intros ?]
    | apply keeps_void
    | progress cbv zeta
    | match goal with
      | |- keeps _ (match ?x with _ => _ end) => destruct x
      | |- keeps _ (log _ _) => keeps_leaf
      | |- keeps _ (delay _) => keeps_leaf
      | |- keeps _ (ext _) => keeps_leaf
      | |- keeps _ (modify _) => keeps_leaf
      end ].

Section Frames.
Context (R : Rel) `{!Composes R}.

Lemma keeps_the_sock : keeps R the_sock.
Proof. unfold the_sock. keeps_walk. Qed.
End Frames.

(** *** Automation: the walk, with the primitive steps left to a tactic *)

Ltac keeps_walk_by leaf :=
  repeat first
    [ assumption
    | match goal with H : ∀ _, keeps _ _ |- _ => apply H end
    | apply keeps_ret; typeclasses eauto
    | apply keeps_throw; typeclasses eauto
    | apply keeps_gets; typeclasses eauto
    | apply keeps_ask; typeclasses eauto
    | apply keeps_clock; typeclasses eauto
    | apply keeps_bind; [typeclasses eauto| |intros ?]
    | apply keeps_try_catch; [typeclasses eauto| |intros ?]
    | apply keeps_when; [typeclasses eauto|]
    | apply keeps_for_of; [typeclasses eauto|intros ?]
    | apply keeps_void
    | progress cbv zeta
    | match goal with
      | |- keeps _ (match ?x with _ => _ end) => destruct x
      | |- keeps _ (log _ _) => leaf
      | |- keeps _ (delay _) => leaf
      | |- keeps _ (ext _) => leaf
      | |- keeps _ (modify _) => leaf
      end ].

Ltac unfold_router :=
  unfold process_batch, on_connection_update, on_creds_update,
    on_messages_upsert, on_messages_update,
    on_message_receipt_update, on_messages_reaction, on_presence_update,
    on_chats_update, on_chats_delete, on_contacts_update, on_contact_update,
    profilePictureUrl_or_null, on_contacts_upsert, on_call,
    on_messaging_history_set, on_labels_association, on_labels_edit.

(** The same in one world, for what depends on the configuration or on
    the causes the world tells apart. *)

Section InOneWorld.
Context (W : World) (R : Rel) `{!Composes R}.

Lemma keeps_in_of_keeps {A} (m : M A) : keeps R m → keeps_in W R m.
Proof. intros H n s. apply H. Qed.

Lemma keeps_in_bind {A B} (m : M A) (f : A → M B) :
  keeps_in W R m → (∀ a, keeps_in W R (f a)) → keeps_in W R (bind m f).
Proof.
  intros Hm Hf n s. specialize (Hm n s).
  destruct (m W n s) as [[[a|e] s1] t1] eqn:E.
  - rewrite (bind_returns _ _ _ _ _ _ _ _ E). cbn.
    eapply rel_app; [exact Hm|]. apply Hf.
  - rewrite (bind_throws _ _ _ _ _ _ _ _ E). exact Hm.
Qed.

Lemma run_keeps_in ops n s :
  Forall (λ o, keeps_in W R (perform o)) ops →
  R s (run W ops n s).2 (run W ops n s).1.
Proof.
  intros Hp. revert n s. induction Hp as [|o ops Ho _ IH]; intros n s.
  - apply rel_nil.
  - cbn [run]. specialize (Ho n s).
    destruct (perform o W n s) as [[r s1] t1]. specialize (IH (n + length t1) s1).
    destruct (run W ops (n + length t1) s1) as [s2 t2]. cbn in *.
    eapply rel_app; [exact Ho|exact IH].
Qed.
End InOneWorld.

(** Every handler of the router but the first leaves the object as it is
    and is quiet. *)
Lemma dispatch_quiet k b :
  k ≠ KConnectionUpdate → keeps (frame quiet eq) (dispatch k b).
Proof.
  intros Hk. pose proof (keeps_the_sock (frame quiet eq)) as Hs.
  destruct k; try done; cbn [dispatch];
    unfold on_creds_update, on_messages_upsert, on_messages_update,
      on_message_receipt_update, on_messages_reaction, on_presence_update,
      on_chats_update, on_chats_delete, on_contacts_update, on_contact_update,
      profilePictureUrl_or_null, on_contacts_upsert, on_call,
      on_messaging_history_set, on_labels_association, on_labels_edit;
    keeps_walk.
Qed.

(** *** Automation: run a method on a symbolic state *)

Ltac unfold_methods :=
  unfold handleConnectionUpdate, handle_qr, handle_close, handle_open,
    handle_connecting, initialize, startConnection, setupEventHandlers,
    the_sock, sendMessage, shutdown, getMessage.

Ltac unfold_monad :=
  unfold bind, ret, throw, try_catch, gets, modify, ask, clock, log, delay,
    ext, when, void, result, final, trace.

Ltac case_calls :=
  repeat (cbn;
          match goal with
          | |- context [fails ?W ?n ?c] => destruct (fails W n c) eqn:?
          end);
  cbn.

(** ** [startConnection] *)

(** A call of [startConnection] is one attempt; besides that it is quiet and
    changes nothing of the supervisor's bookkeeping. *)
Lemma startConnection_frame :
  keeps (frame quiet_but_attempts same_supervision) startConnection.
Proof.
  pose proof (keeps_the_sock (frame quiet_but_attempts same_supervision)).
  unfold startConnection, setupEventHandlers. keeps_walk.
Qed.

Lemma startConnection_attempts W n s :
  attempts (trace (startConnection W n s)) = 1.
Proof.
  unfold_methods. unfold_monad.
  destruct (cfg_useMongoAuth W n); case_calls; reflexivity.
Qed.

(** When [startConnection] returns, the object holds a new handle and a new,
    empty store bound to it. *)
Lemma startConnection_returns W n s :
  result (startConnection W n s) = Ret tt →
  ∃ h, sock (final (startConnection W n s))
         = Some {| sock_id := h; sock_ended := false |} ∧
       store (final (startConnection W n s))
         = Some {| contacts := ∅; messages := ∅; bound := Some h |}.
Proof.
  unfold_methods. unfold_monad.
  destruct (cfg_useMongoAuth W n); case_calls; intros; try discriminate;
    eexists; split; reflexivity.
Qed.

(** ** [handleConnectionUpdate] *)

Lemma shouldReconnect_false W u :
  shouldReconnect W u = false ↔ logged_out_cause W u.
Proof.
  unfold shouldReconnect, boom_status, logged_out_cause. split.
  - destruct (lastDisconnect u) as [[[[[o|]|]|]]|]; try discriminate.
    destruct o as [[c|]]; try discriminate. cbn.
    intros H. apply negb_false_iff, Z.eqb_eq in H. subst c. by eexists.
  - intros (o & -> & Ho). rewrite Ho. by rewrite Z.eqb_refl.
Qed.

Lemma shouldReconnect_true W u :
  shouldReconnect W u = true ↔ ¬ logged_out_cause W u.
Proof.
  rewrite <- shouldReconnect_false. by destruct (shouldReconnect W u).
Qed.

(** The QR stage leaves the object alone and is quiet. *)
Lemma handle_qr_quiet u : keeps (frame quiet eq) (handle_qr u).
Proof. unfold handle_qr. keeps_walk. Qed.

Lemma handle_qr_returns W n s u :
  result (handle_qr u W n s) = Ret tt →
  handle_qr u W n s = (Ret tt, s, trace (handle_qr u W n s)).
Proof.
  intros H. destruct (handle_qr_quiet u W n s) as [_ Hs].
  destruct (handle_qr u W n s) as [[r s1] t1]. cbn in *. congruence.
Qed.

Lemma handle_qr_falsy W n s u :
  truthy (qr u) = false → handle_qr u W n s = (Ret tt, s, []).
Proof. unfold handle_qr. by intros ->. Qed.

(** With [connection = 'close'], after the QR stage only the close stage
    does anything. *)
Lemma handleConnectionUpdate_close W n s u :
  connection u = Some Close →
  result (handle_qr u W n s) = Ret tt →
  handleConnectionUpdate u W n s =
    (result (handle_close u W (n + length (trace (handle_qr u W n s))) s),
     final (handle_close u W (n + length (trace (handle_qr u W n s))) s),
     trace (handle_qr u W n s) ++
     trace (handle_close u W (n + length (trace (handle_qr u W n s))) s)).
Proof.
  intros Hc Hq. unfold handleConnectionUpdate.
  rewrite (bind_returns _ _ _ _ _ _ _ _ (handle_qr_returns _ _ _ _ Hq)).
  set (n1 := n + length _). cbn [result final trace fst snd].
  destruct (handle_close u W n1 s) as [[[[]|e] s1] t1] eqn:E.
  - rewrite (bind_returns _ _ _ _ _ _ _ _ E).
    unfold handle_open, handle_connecting. rewrite Hc.
    cbn. by rewrite app_nil_r.
  - by rewrite (bind_throws _ _ _ _ _ _ _ _ E).
Qed.

(** The three ways the close stage goes. *)
Lemma handle_close_logged_out W n s u :
  connection u = Some Close → shouldReconnect W u = false →
  handle_close u W n s =
    match telegramBridge s with
    | Some b =>
        (match fails W (n + 2) (SendToAllUsers b NoticeLoggedOut) with
         | None => Ret tt
         | Some e => Throw e
         end, s,
         [ELog Info (LClosed false); ELog Info LLoggedOut;
          ECall (SendToAllUsers b NoticeLoggedOut)
                (fails W (n + 2) (SendToAllUsers b NoticeLoggedOut))])
    | None => (Ret tt, s, [ELog Info (LClosed false); ELog Info LLoggedOut])
    end.
Proof.
  intros Hc Hr. unfold handle_close. rewrite Hc. unfold_monad. rewrite Hr. cbn.
  destruct (telegramBridge s) as [b|]; [|reflexivity].
  replace (n + 0 + 1 + 1 + 0) with (n + 2) by lia.
  by destruct (fails W (n + 2) _).
Qed.

Lemma handle_close_ceiling W n s u :
  connection u = Some Close → shouldReconnect W u = true →
  (maxRetries s ≤ retryCount s)%Z →
  handle_close u W n s =
    match telegramBridge s with
    | Some b =>
        (match fails W (n + 2) (SendToAllUsers b NoticeMaxRetries) with
         | None => Ret tt
         | Some e => Throw e
         end, s,
         [ELog Info (LClosed true); ELog Error LMaxRetries;
          ECall (SendToAllUsers b NoticeMaxRetries)
                (fails W (n + 2) (SendToAllUsers b NoticeMaxRetries))])
    | None => (Ret tt, s, [ELog Info (LClosed true); ELog Error LMaxRetries])
    end.
Proof.
  intros Hc Hr Hle. unfold handle_close. rewrite Hc. unfold_monad. rewrite Hr. cbn.
  replace (retryCount s <? maxRetries s)%Z with false
    by (symmetry; apply Z.ltb_ge; lia).
  cbn. destruct (telegramBridge s) as [b|]; [|reflexivity].
  replace (n + 0 + 1 + 0 + 0 + 1 + 0) with (n + 2) by lia.
  by destruct (fails W (n + 2) _).
Qed.

Lemma handle_close_retry W n s u :
  connection u = Some Close → shouldReconnect W u = true →
  (retryCount s < maxRetries s)%Z →
  handle_close u W n s =
    (result (startConnection W (n + 3) (set_retryCount (retryCount s + 1) s)),
     final (startConnection W (n + 3) (set_retryCount (retryCount s + 1) s)),
     [ELog Info (LClosed true);
      ELog Info (LReconnecting (retryDelay (retryCount s + 1))
                               (retryCount s + 1) (maxRetries s));
      EDelay (retryDelay (retryCount s + 1))] ++
     trace (startConnection W (n + 3) (set_retryCount (retryCount s + 1) s))).
Proof.
  intros Hc Hr Hlt. unfold handle_close. rewrite Hc.
  unfold bind, ret, gets, modify, ask, log, delay. rewrite Hr. cbn.
  replace (retryCount s <? maxRetries s)%Z with true
    by (symmetry; apply Z.ltb_lt; lia).
  cbn. replace (n + 0 + 1 + 0 + 0 + 0 + 0 + 1 + 1) with (n + 3) by lia.
  by destruct (startConnection W (n + 3) _) as [[r s1] t1].
Qed.

(** What one close event does, by cause and by counter. *)
Lemma close_attempts W n s u :
  connection u = Some Close →
  result (handle_qr u W n s) = Ret tt →
  attempts (trace (handleConnectionUpdate u W n s)) =
    if shouldReconnect W u && (retryCount s <? maxRetries s)%Z then 1 else 0.
Proof.
  intros Hc Hq. rewrite (handleConnectionUpdate_close _ _ _ _ Hc Hq).
  destruct (handle_qr_quiet u W n s) as [Hquiet _].
  apply quiet_trace in Hquiet as (Hq0 & _).
  cbn [trace snd]. unfold attempts in *. rewrite count_app, Hq0. cbn [Nat.add].
  destruct (shouldReconnect W u) eqn:Hr; cbn [andb].
  - destruct (Z.ltb_spec (retryCount s) (maxRetries s)) as [Hlt|Hge].
    + rewrite (handle_close_retry _ _ _ _ Hc Hr Hlt). cbn [trace snd].
      rewrite count_app. apply startConnection_attempts.
    + rewrite (handle_close_ceiling _ _ _ _ Hc Hr Hge).
      by destruct (telegramBridge s).
  - rewrite (handle_close_logged_out _ _ _ _ Hc Hr).
    by destruct (telegramBridge s).
Qed.

(** ** The QR stage and the stages after it *)

Lemma handle_qr_result W n s u :
  result (handle_qr u W n s) = Ret tt ↔ qr_shown W n s u.
Proof.
  unfold qr_shown, handle_qr.
  destruct (truthy (qr u)); cbn [when]; [|by split; [left|]].
  unfold_monad. cbn. rewrite ?Nat.add_0_r.
  destruct (telegramBridge s) as [b|]; cbn.
  - destruct (fails W (n + 1) (SendQRCode b _)); cbn;
      (split; [intros H; try discriminate H; by right
              |intros [H|H]; try discriminate H; done]).
  - destruct (fails W (n + 1) ImportQrcodeTerminal); cbn.
    + split; [discriminate|]. intros [H|[H _]]; discriminate H.
    + rewrite <- ?Nat.add_assoc. cbn [Nat.add].
      destruct (fails W (n + 2) (QRCodeGenerate _)); cbn;
        (split; [intros H; try discriminate H; by right
                |intros [H|[_ H]]; try discriminate H; done]).
Qed.

(** A QR stage that throws ends the update: no later stage runs. *)
Lemma handleConnectionUpdate_qr_throws W n s u e :
  result (handle_qr u W n s) = Throw e →
  handleConnectionUpdate u W n s = handle_qr u W n s.
Proof.
  intros He. unfold handleConnectionUpdate.
  destruct (handle_qr u W n s) as [[r s1] t1] eqn:E. cbn in He. subst r.
  by apply bind_throws.
Qed.

(** What one close event does, whatever its QR stage does. *)
Lemma close_attempts_any W n s u :
  connection u = Some Close →
  attempts (trace (handleConnectionUpdate u W n s)) =
    match result (handle_qr u W n s) with
    | Ret _ =>
        if shouldReconnect W u && (retryCount s <? maxRetries s)%Z then 1 else 0
    | Throw _ => 0
    end.
Proof.
  intros Hc. destruct (result (handle_qr u W n s)) as [[]|e] eqn:Hq.
  - by apply close_attempts.
  - rewrite (handleConnectionUpdate_qr_throws _ _ _ _ _ Hq).
    destruct (handle_qr_quiet u W n s) as [Hquiet _].
    by apply quiet_trace in Hquiet as (Ha & _).
Qed.

(** C1, as the code has it. For every connection-close event: after an
    explicit logout (a Boom error with the logged-out status code) no
    reconnect is attempted, whatever the counter; a reconnect is attempted,
    once, exactly when the QR stage of the update completed, the cause is
    no explicit logout (no [lastDisconnect], no error, an error that is not
    a Boom, a Boom with another or no status code) and the retry ceiling is
    not reached; in every other case none is attempted. The QR stage
    completes exactly when there is no QR code to show or showing it
    works, so for a close without QR code the cause and the ceiling alone
    decide. *)
Theorem reconnect_iff_not_logged_out W n s u :
  connection u = Some Close →
  (result (handle_qr u W n s) = Ret tt ↔ qr_shown W n s u) ∧
  (logged_out_cause W u →
     attempts (trace (handleConnectionUpdate u W n s)) = 0) ∧
  (attempts (trace (handleConnectionUpdate u W n s)) = 1 ↔
     qr_shown W n s u ∧ ¬ logged_out_cause W u ∧
     (retryCount s < maxRetries s)%Z) ∧
  (attempts (trace (handleConnectionUpdate u W n s)) = 0 ↔
     ¬ qr_shown W n s u ∨ logged_out_cause W u ∨
     (maxRetries s ≤ retryCount s)%Z) ∧
  (truthy (qr u) = false → ¬ logged_out_cause W u →
     (retryCount s < maxRetries s)%Z →
     attempts (trace (handleConnectionUpdate u W n s)) = 1).
Proof.
  intros Hc. split; [apply handle_qr_result|].
  rewrite (close_attempts_any _ _ _ _ Hc).
  rewrite <- handle_qr_result, <- shouldReconnect_true, <- shouldReconnect_false.
  assert (Hfalsy : truthy (qr u) = false → result (handle_qr u W n s) = Ret tt)
    by (intros H; by rewrite handle_qr_falsy).
  destruct (result (handle_qr u W n s)) as [[]|e];
    destruct (shouldReconnect W u); cbn [andb];
    destruct (Z.ltb_spec (retryCount s) (maxRetries s)) as [Hlt|Hge];
    intuition (try discriminate; try lia; try congruence).
Qed.

Lemma reconnect_iff_not_logged_out_witness :
  attempts (trace (handleConnectionUpdate (close_logged_out 401) calm 0 new_bot)) = 0 ∧
  attempts (trace (handleConnectionUpdate close_unknown calm 0 new_bot)) = 1.
Proof.
  split.
  - apply (proj1 (proj2 (reconnect_iff_not_logged_out calm 0 new_bot
                           (close_logged_out 401) eq_refl))).
    by eexists.
  - apply (proj2 (proj2 (proj2 (proj2
             (reconnect_iff_not_logged_out calm 0 new_bot
                close_unknown eq_refl))))).
    + reflexivity.
    + intros (o & Ho & _). discriminate Ho.
    + reflexivity.
Defined.

(** C1 as the spec states it fails: a close whose cause is unknown, with
    the counter at 0, makes no reconnect when the update also carries a QR
    code that the bridge cannot send; the handler ends in the QR stage. *)
Lemma reconnects_unless_logged_out_counterexample :
  connection close_with_qr = Some Close ∧
  ¬ logged_out_cause qr_send_fails close_with_qr ∧
  (retryCount bridged_bot < maxRetries bridged_bot)%Z ∧
  ¬ reconnects_unless_logged_out qr_send_fails 30 bridged_bot close_with_qr ∧
  handleConnectionUpdate close_with_qr qr_send_fails 30 bridged_bot =
    (Throw (External 3), bridged_bot,
     [ELog Info LQrReceived;
      ECall (SendQRCode 19 "2@code") (Some (External 3))]).
Proof.
  assert (H : ¬ logged_out_cause qr_send_fails close_with_qr)
    by (intros (o & Ho & _); discriminate Ho).
  split; [reflexivity|]. split; [exact H|]. split; [reflexivity|].
  split; [|reflexivity].
  intros Hspec. destruct (Hspec eq_refl) as [_ Hre].
  specialize (Hre H ltac:(reflexivity)). discriminate Hre.
Qed.

(** ** The backoff *)

Lemma retryDelay_values :
  retryDelay 1 = 2000%Z ∧ retryDelay 2 = 4000%Z ∧ retryDelay 3 = 8000%Z ∧
  retryDelay 4 = 16000%Z ∧ retryDelay 5 = 30000%Z.
Proof. by repeat split. Qed.

Lemma retryDelay_mono j k : (0 ≤ j ≤ k)%Z → (retryDelay j ≤ retryDelay k)%Z.
Proof.
  intros H. unfold retryDelay. apply Z.min_le_compat_r.
  apply Z.mul_le_mono_nonneg_l; [lia|]. apply Z.pow_le_mono_r; lia.
Qed.

(** A transient close below the ceiling: the counter goes up by one, one
    timer of [retryDelay] runs, one attempt is made. *)
Lemma close_retry W n s u :
  connection u = Some Close →
  result (handle_qr u W n s) = Ret tt →
  ¬ logged_out_cause W u →
  (0 ≤ retryCount s < maxRetries s)%Z →
  delays (trace (handleConnectionUpdate u W n s)) = [retryDelay (retryCount s + 1)] ∧
  attempts (trace (handleConnectionUpdate u W n s)) = 1 ∧
  notices (trace (handleConnectionUpdate u W n s)) = 0 ∧
  same_supervision (set_retryCount (retryCount s + 1) s)
                   (final (handleConnectionUpdate u W n s)).
Proof.
  intros Hc Hq Hr%shouldReconnect_true [_ Hlt].
  pose proof (close_attempts _ _ _ _ Hc Hq) as Ha.
  rewrite Hr in Ha. cbn [andb] in Ha.
  replace (retryCount s <? maxRetries s)%Z with true in Ha
    by (symmetry; apply Z.ltb_lt; lia).
  rewrite (handleConnectionUpdate_close _ _ _ _ Hc Hq) in *.
  rewrite (handle_close_retry _ _ _ _ Hc Hr Hlt) in *.
  cbn [result final trace fst snd] in *.
  destruct (handle_qr_quiet u W n s) as [Hquiet _].
  apply quiet_trace in Hquiet as (_ & Hn & _ & _ & Hd).
  set (x := startConnection W _ _).
  destruct (startConnection_frame W (n + length (trace (handle_qr u W n s)) + 3)
              (set_retryCount (retryCount s + 1) s)) as [Hsq Hss].
  fold x in Hsq, Hss.
  apply quiet_but_attempts_trace in Hsq as (Hn' & _ & _ & Hd').
  split; [|split; [exact Ha|split; [|exact Hss]]].
  - by rewrite !delays_app, Hd, Hd'.
  - unfold notices in *. by rewrite !count_app, Hn, Hn'.
Qed.

(** A transient close below the ceiling, step by step: the QR stage, the
    two log lines, the timer, then the call of [startConnection]. *)
Lemma close_retry_steps W n s u :
  connection u = Some Close →
  result (handle_qr u W n s) = Ret tt →
  ¬ logged_out_cause W u →
  (0 ≤ retryCount s < maxRetries s)%Z →
  let tq := trace (handle_qr u W n s) in
  let x := startConnection W (n + length tq + 3)
             (set_retryCount (retryCount s + 1) s) in
  handleConnectionUpdate u W n s =
    (result x, final x,
     tq ++ [ELog Info (LClosed true);
            ELog Info (LReconnecting (retryDelay (retryCount s + 1))
                                     (retryCount s + 1) (maxRetries s));
            EDelay (retryDelay (retryCount s + 1))] ++ trace x) ∧
  attempts tq = 0 ∧ delays tq = [] ∧
  attempts (trace x) = 1 ∧ delays (trace x) = [].
Proof.
  intros Hc Hq Hr%shouldReconnect_true [_ Hlt] tq x.
  rewrite (handleConnectionUpdate_close _ _ _ _ Hc Hq).
  rewrite (handle_close_retry _ _ _ _ Hc Hr Hlt).
  cbn [result final trace fst snd]. fold tq. fold x.
  destruct (handle_qr_quiet u W n s) as [Hquiet _].
  apply quiet_trace in Hquiet as (Ha & _ & _ & _ & Hd).
  destruct (startConnection_frame W (n + length tq + 3)
              (set_retryCount (retryCount s + 1) s)) as [Hsq _].
  apply quiet_but_attempts_trace in Hsq as (_ & _ & _ & Hd').
  repeat split; try done. apply startConnection_attempts.
Qed.

(** C2, as the code has it. For a transient close whose QR stage completes
    (always, when the update carries no QR code) and that arrives with
    [retryCount = k - 1], [k] in 1..5, so that the attempt is the [k]-th:
    the handler runs the QR stage, logs, waits [min(1000 * 2^k, 30000)] ms
    and only then calls [startConnection]; that call is the one attempt of
    the handler and starts no timer, and nothing before the timer is an
    attempt or a timer. The counter is left at [k]. The delay never exceeds
    30000 ms and does not decrease with [k]; with [retryCount = 0] it is
    2000 ms and the counter is left at 1. *)
Theorem backoff_delay W n s u k :
  connection u = Some Close →
  qr_shown W n s u →
  ¬ logged_out_cause W u →
  maxRetries s = 5%Z →
  (1 ≤ k ≤ 5)%Z →
  retryCount s = (k - 1)%Z →
  let d := Z.min (1000 * 2 ^ k) 30000 in
  let tq := trace (handle_qr u W n s) in
  let x := startConnection W (n + length tq + 3) (set_retryCount k s) in
  handleConnectionUpdate u W n s =
    (result x, final x,
     tq ++ [ELog Info (LClosed true); ELog Info (LReconnecting d k 5);
            EDelay d] ++ trace x) ∧
  attempts tq = 0 ∧ delays tq = [] ∧
  attempts (trace x) = 1 ∧ delays (trace x) = [] ∧
  delays (trace (handleConnectionUpdate u W n s)) = [d] ∧
  attempts (trace (handleConnectionUpdate u W n s)) = 1 ∧
  retryCount (final (handleConnectionUpdate u W n s)) = k ∧
  (d ≤ 30000)%Z ∧
  (∀ j, (1 ≤ j ≤ k)%Z → (retryDelay j ≤ retryDelay k)%Z) ∧
  (k = 1%Z → d = 2000%Z).
Proof.
  intros Hc Hq%handle_qr_result Hr Hm Hk Hrc d tq x.
  destruct (close_retry_steps W n s u Hc Hq Hr) as (Heq & Ha & Hd & Ha' & Hd');
    [lia|].
  destruct (close_retry W n s u Hc Hq Hr) as (Hds & Has & _ & Hrc' & _); [lia|].
  replace (retryCount s + 1)%Z with k in * by lia. rewrite Hm in Heq.
  fold tq in Heq, Ha, Hd. fold x in Heq, Ha', Hd'.
  change (retryDelay k) with d in Heq, Hds.
  repeat split; try done.
  - subst d. lia.
  - intros j Hj. apply retryDelay_mono. lia.
  - by intros ->.
Qed.

Lemma backoff_delay_witness :
  delays (trace (handleConnectionUpdate close_unknown calm 0 new_bot)) = [2000%Z] ∧
  attempts (trace (handleConnectionUpdate close_unknown calm 0 new_bot)) = 1 ∧
  retryCount (final (handleConnectionUpdate close_unknown calm 0 new_bot)) = 1%Z.
Proof.
  assert (H : ¬ logged_out_cause calm close_unknown)
    by (intros (o & Ho & _); discriminate Ho).
  assert (Hq : qr_shown calm 0 new_bot close_unknown) by (by left).
  destruct (backoff_delay calm 0 new_bot close_unknown 1
              eq_refl Hq H eq_refl ltac:(lia) eq_refl)
    as (_ & _ & _ & _ & _ & Hd & Ha & Hrc & _).
  exact (conj Hd (conj Ha Hrc)).
Defined.

(** C2 as the spec states it fails: a transient close that arrives with
    [retryCount = 0] and also carries a QR code the bridge cannot send
    schedules no reconnect at all; no timer runs and the counter stays 0. *)
Lemma first_retry_after_2000_counterexample :
  ¬ first_retry_after_2000 qr_send_fails 30 bridged_bot close_with_qr ∧
  delays (trace (handleConnectionUpdate close_with_qr qr_send_fails 30
                   bridged_bot)) = [] ∧
  retryCount (final (handleConnectionUpdate close_with_qr qr_send_fails 30
                       bridged_bot)) = 0%Z.
Proof.
  split; [|by split].
  intros Hspec.
  destruct (Hspec eq_refl) as (Hd & _); try reflexivity.
  - intros (o & Ho & _). discriminate Ho.
  - discriminate Hd.
Qed.

(** ** The callback as a whole *)

Lemma after_connection_update_quiet b :
  keeps (frame quiet eq) (after_connection_update b).
Proof.
  assert (H : ∀ k, k ≠ KConnectionUpdate → keeps (frame quiet eq) (dispatch k b))
    by (intros; by apply dispatch_quiet).
  unfold after_connection_update.
  repeat (apply keeps_bind; [typeclasses eauto| |intros _]);
    match goal with
    | |- keeps _ (on_creds_update _) => by apply (H KCredsUpdate)
    | |- keeps _ (on_messages_upsert _) => by apply (H KMessagesUpsert)
    | |- keeps _ (on_messages_update _) => by apply (H KMessagesUpdate)
    | |- keeps _ (on_message_receipt_update _) => by apply (H KMessageReceiptUpdate)
    | |- keeps _ (on_messages_reaction _) => by apply (H KMessagesReaction)
    | |- keeps _ (on_presence_update _) => by apply (H KPresenceUpdate)
    | |- keeps _ (on_chats_update _) => by apply (H KChatsUpdate)
    | |- keeps _ (on_chats_delete _) => by apply (H KChatsDelete)
    | |- keeps _ (on_contacts_update _) => by apply (H KContactsUpdate)
    | |- keeps _ (on_contacts_upsert _) => by apply (H KContactsUpsert)
    | |- keeps _ (on_call _) => by apply (H KCall)
    | |- keeps _ (on_messaging_history_set _) => by apply (H KMessagingHistorySet)
    | |- keeps _ (on_labels_association _) => by apply (H KLabelsAssociation)
    | |- keeps _ (on_labels_edit _) => by apply (H KLabelsEdit)
    end.
Qed.

(** The callback is the connection handler, then quiet handlers that leave
    the object as the connection handler left it. *)
Lemma process_batch_split W n s b :
  ∃ r t, process_batch b W n s =
           (r, final (on_connection_update b W n s),
            trace (on_connection_update b W n s) ++ t) ∧
         Forall (λ e, quiet e = true) t.
Proof.
  change (process_batch b)
    with (bind (on_connection_update b) (λ _, after_connection_update b)).
  destruct (on_connection_update b W n s) as [[[[]|e] s1] t1] eqn:E.
  - rewrite (bind_returns _ _ _ _ _ _ _ _ E).
    destruct (after_connection_update_quiet b W (n + length t1) s1) as [Hq <-].
    eexists _, _. split; [reflexivity|exact Hq].
  - rewrite (bind_throws _ _ _ _ _ _ _ _ E).
    exists (Throw e), []. split; [by rewrite app_nil_r|constructor].
Qed.

Lemma process_batch_no_connection_update b :
  ev_connection_update b = None → keeps (frame quiet eq) (process_batch b).
Proof.
  intros Hb W n s. destruct (process_batch_split W n s b) as (r & t & -> & Ht).
  unfold on_connection_update. rewrite Hb. cbn. split; [exact Ht|reflexivity].
Qed.

(** ** The retry ceiling *)

Lemma batch_retry W n s b :
  transient_close W b → (0 ≤ retryCount s < maxRetries s)%Z →
  attempts (trace (process_batch b W n s)) = 1 ∧
  notices (trace (process_batch b W n s)) = 0 ∧
  delays (trace (process_batch b W n s)) = [retryDelay (retryCount s + 1)] ∧
  same_supervision (set_retryCount (retryCount s + 1) s)
                   (final (process_batch b W n s)).
Proof.
  intros (u & Hb & Hc & Hqr & Hr) Hlt.
  assert (Hq : result (handle_qr u W n s) = Ret tt)
    by (by rewrite handle_qr_falsy).
  destruct (close_retry W n s u Hc Hq Hr Hlt) as (Hd & Ha & Hn & Hs).
  destruct (process_batch_split W n s b) as (r & t & -> & Ht).
  apply quiet_trace in Ht as (Ha' & Hn' & _ & _ & Hd').
  unfold on_connection_update. rewrite Hb. cbn [trace final fst snd].
  unfold attempts, notices in *.
  by rewrite !count_app, delays_app, Ha, Ha', Hn, Hn', Hd, Hd'.
Qed.

Lemma connection_update_ceiling W n s b :
  transient_close W b → (maxRetries s ≤ retryCount s)%Z →
  on_connection_update b W n s =
    match telegramBridge s with
    | Some br =>
        (match fails W (n + 2) (SendToAllUsers br NoticeMaxRetries) with
         | None => Ret tt
         | Some e => Throw e
         end, s,
         [ELog Info (LClosed true); ELog Error LMaxRetries;
          ECall (SendToAllUsers br NoticeMaxRetries)
                (fails W (n + 2) (SendToAllUsers br NoticeMaxRetries))])
    | None => (Ret tt, s, [ELog Info (LClosed true); ELog Error LMaxRetries])
    end.
Proof.
  intros (u & Hb & Hc & Hqr & Hr%shouldReconnect_true) Hge.
  assert (Hq : result (handle_qr u W n s) = Ret tt)
    by (by rewrite handle_qr_falsy).
  unfold on_connection_update. rewrite Hb.
  rewrite (handleConnectionUpdate_close _ _ _ _ Hc Hq).
  rewrite handle_qr_falsy by done. cbn [trace snd length app].
  rewrite Nat.add_0_r, (handle_close_ceiling _ _ _ _ Hc Hr Hge).
  by destruct (telegramBridge s).
Qed.

Lemma batch_ceiling W n s b :
  transient_close W b → (maxRetries s ≤ retryCount s)%Z →
  attempts (trace (process_batch b W n s)) = 0 ∧
  delays (trace (process_batch b W n s)) = [] ∧
  notices (trace (process_batch b W n s))
    = (if telegramBridge s is Some _ then 1 else 0) ∧
  final (process_batch b W n s) = s.
Proof.
  intros Hb Hge.
  destruct (process_batch_split W n s b) as (r & t & -> & Ht).
  apply quiet_trace in Ht as (Ha' & Hn' & _ & _ & Hd').
  rewrite (connection_update_ceiling _ _ _ _ Hb Hge).
  unfold attempts, notices in *. cbn [trace final fst snd].
  rewrite !count_app, delays_app, Ha', Hn', Hd'.
  by destruct (telegramBridge s).
Qed.

(** A batch that carries only a connection-state update is handled as that
    update. *)
Lemma process_batch_of_update W n s u :
  process_batch (batch_of_update u) W n s = handleConnectionUpdate u W n s.
Proof.
  unfold process_batch, on_connection_update, on_creds_update,
    on_messages_upsert, on_messages_update, on_message_receipt_update,
    on_messages_reaction, on_presence_update, on_chats_update,
    on_chats_delete, on_contacts_update, on_contacts_upsert, on_call,
    on_messaging_history_set, on_labels_association, on_labels_edit.
  cbn. unfold bind, ret.
  destruct (handleConnectionUpdate u W n s) as [[[[]|e] s1] t1];
    by rewrite ?app_nil_r.
Qed.

Lemma transient_close_op_batch W o :
  transient_close_op W o = true →
  ∃ b, transient_close W b ∧ ∀ n s, perform o W n s = process_batch b W n s.
Proof.
  unfold transient_close_op.
  destruct (update_of o) as [u|] eqn:Hu; [|discriminate].
  destruct (connection u) as [[]|] eqn:Hc; try discriminate.
  intros [Hqr Hr%shouldReconnect_true]%andb_true_iff.
  apply negb_true_iff in Hqr.
  destruct o; try discriminate Hu; cbn in Hu.
  - exists b. split; [by exists u|done].
  - injection Hu as ->. exists (batch_of_update u).
    split; [by exists u|]. intros n s. by rewrite process_batch_of_update.
Qed.

(** An update that says neither ['open'] nor ['close'] leaves the object
    alone and is quiet: it is logged, and a QR code it carries is shown. *)
Lemma other_update_quiet u :
  connection u ≠ Some Open → connection u ≠ Some Close →
  keeps (frame quiet eq) (handleConnectionUpdate u).
Proof.
  intros Ho Hc. pose proof (handle_qr_quiet u) as Hq.
  unfold handleConnectionUpdate, handle_close, handle_open, handle_connecting.
  destruct (connection u) as [[]|]; try done; keeps_walk.
Qed.

Lemma quiet_eq_same_supervision {A} (m : M A) :
  keeps (frame quiet eq) m → keeps (frame quiet same_supervision) m.
Proof. intros H W n s. destruct (H W n s) as [Hq <-]. by split. Qed.

(** What comes between two closes makes no attempt, runs no timer, sends no
    notice and leaves the supervisor's bookkeeping as it is. *)
Lemma between_closes_frame o :
  between_closes o = true → keeps (frame quiet same_supervision) (perform o).
Proof.
  destruct o; cbn [between_closes update_of perform]; try discriminate.
  - intros Hb. apply quiet_eq_same_supervision. intros W n s.
    destruct (process_batch_split W n s b) as (r & t & -> & Ht).
    cbn [trace final fst snd]. unfold on_connection_update.
    destruct (ev_connection_update b) as [u|]; [|by cbn].
    destruct (other_update_quiet u) with (W := W) (n := n) (s := s)
      as [Hq Hs]; [by destruct (connection u) as [[]|]..|].
    split; [by apply Forall_app|exact Hs].
  - intros Hu. apply quiet_eq_same_supervision, other_update_quiet;
      by destruct (connection u) as [[]|].
  - intros _. unfold getMessage. keeps_walk.
  - intros _. unfold sendMessage. keeps_walk.
  - intros _. unfold shutdown. keeps_walk.
Qed.

Lemma closes_cons W o ops :
  closes W (o :: ops) = (if transient_close_op W o then 1 else 0) + closes W ops.
Proof.
  unfold closes. destruct (transient_close_op W o) eqn:E.
  - by rewrite filter_cons_True by exact E.
  - by rewrite filter_cons_False by (rewrite E; discriminate).
Qed.

(** A run of transient closes with other events in between, none of them
    an open: as long as there is room below the ceiling each close makes
    one attempt and raises the counter by one; every close after that
    makes none and sends one notice if a bridge exists. *)
Lemma run_closes W ops : ∀ n s,
  (0 ≤ retryCount s ≤ maxRetries s)%Z →
  Forall (λ o, transient_close_op W o || between_closes o = true) ops →
  let room := Z.to_nat (maxRetries s - retryCount s) in
  attempts (run W ops n s).2 = closes W ops `min` room ∧
  notices (run W ops n s).2
    = (if telegramBridge s is Some _ then closes W ops - room else 0) ∧
  retryCount (run W ops n s).1
    = (retryCount s + Z.of_nat (closes W ops `min` room))%Z ∧
  maxRetries (run W ops n s).1 = maxRetries s ∧
  telegramBridge (run W ops n s).1 = telegramBridge s.
Proof.
  induction ops as [|o ops IH]; intros n s Hrc Hops room.
  - cbn. repeat split; [by destruct (telegramBridge s)|lia].
  - apply Forall_cons in Hops as [Ho Hops]. rewrite closes_cons.
    cbn [run].
    destruct (transient_close_op W o) eqn:Hclose.
    + destruct (transient_close_op_batch W o Hclose) as (b & Hb & Hperf).
      rewrite Hperf.
      destruct (Z.ltb_spec (retryCount s) (maxRetries s)) as [Hlt|Hge].
      * destruct (batch_retry W n s b Hb) as (Ha & Hn & _ & Hrc1 & Hmx1 & Hbr1 & _);
          [lia..|].
        destruct (process_batch b W n s) as [[r s1] t1].
        cbn [trace final fst snd retryCount maxRetries telegramBridge
             set_retryCount] in Ha, Hn, Hrc1, Hmx1, Hbr1.
        specialize (IH (n + length t1) s1 ltac:(lia) Hops).
        destruct (run W ops (n + length t1) s1) as [s2 t2].
        cbn [fst snd] in *.
        destruct IH as (Ha2 & Hn2 & Hrc2 & Hmx2 & Hbr2).
        rewrite Hmx1, Hrc1, Hbr1 in *.
        unfold attempts, notices in *. rewrite !count_app, Ha, Hn, Ha2, Hn2.
        subst room. repeat split; try lia; try congruence.
        destruct (telegramBridge s); lia.
      * destruct (batch_ceiling W n s b Hb Hge) as (Ha & _ & Hn & Hs).
        destruct (process_batch b W n s) as [[r s1] t1].
        cbn [trace final fst snd] in Ha, Hn, Hs. subst s1.
        specialize (IH (n + length t1) s ltac:(lia) Hops).
        destruct (run W ops (n + length t1) s) as [s2 t2].
        cbn [fst snd] in *.
        destruct IH as (Ha2 & Hn2 & Hrc2 & Hmx2 & Hbr2).
        unfold attempts, notices in *. rewrite !count_app, Ha, Hn, Ha2, Hn2.
        subst room. repeat split; try lia; try congruence.
        destruct (telegramBridge s); lia.
    + cbn [orb] in Ho.
      destruct (between_closes_frame o Ho W n s) as [Hq (Hrc1 & Hmx1 & Hbr1 & _)].
      apply quiet_trace in Hq as (Ha & Hn & _).
      destruct (perform o W n s) as [[r s1] t1].
      cbn [trace final fst snd] in Ha, Hn, Hrc1, Hmx1, Hbr1.
      specialize (IH (n + length t1) s1 ltac:(lia) Hops).
      destruct (run W ops (n + length t1) s1) as [s2 t2].
      cbn [fst snd] in *.
      destruct IH as (Ha2 & Hn2 & Hrc2 & Hmx2 & Hbr2).
      rewrite Hmx1, Hrc1, Hbr1 in *.
      unfold attempts, notices in *. rewrite !count_app, Ha, Hn, Ha2, Hn2.
      subst room. repeat split; try lia; try congruence.
Qed.

(** C3, as the code has it. Take any run that starts with [retryCount = 0]
    and [maxRetries = 5] and in which transient closes alternate with
    whatever else may be delivered or called short of an open
    (['connecting'] updates, QR codes, batches of other kinds,
    [getMessage], [sendMessage], [shutdown]). While the run has delivered
    at most five transient closes, each of them made one reconnect attempt
    and no notice was sent. After the fifth, a sixth transient close makes
    no attempt and starts no timer, and the object is left as it was (no
    new handle); its connection handler logs the error and, if a bridge
    exists, calls [sendToAllUsers] exactly once, failing only if that call
    fails; without a bridge no notice is sent. *)
Theorem ceiling_after_five_retries W n s ops b6 :
  retryCount s = 0%Z → maxRetries s = 5%Z →
  Forall (λ o, transient_close_op W o || between_closes o = true) ops →
  transient_close W b6 →
  let s5 := (run W ops n s).1 in
  let n6 := n + length (run W ops n s).2 in
  (closes W ops ≤ 5 →
     attempts (run W ops n s).2 = closes W ops ∧
     notices (run W ops n s).2 = 0 ∧
     retryCount s5 = Z.of_nat (closes W ops))%nat ∧
  (closes W ops = 5 →
     attempts (run W ops n s).2 = 5 ∧
     notices (run W ops n s).2 = 0 ∧
     attempts (trace (process_batch b6 W n6 s5)) = 0 ∧
     delays (trace (process_batch b6 W n6 s5)) = [] ∧
     final (process_batch b6 W n6 s5) = s5 ∧
     notices (trace (process_batch b6 W n6 s5))
       = (if telegramBridge s is Some _ then 1 else 0) ∧
     on_connection_update b6 W n6 s5 =
       match telegramBridge s with
       | Some br =>
           (match fails W (n6 + 2) (SendToAllUsers br NoticeMaxRetries) with
            | None => Ret tt
            | Some e => Throw e
            end, s5,
            [ELog Info (LClosed true); ELog Error LMaxRetries;
             ECall (SendToAllUsers br NoticeMaxRetries)
                   (fails W (n6 + 2) (SendToAllUsers br NoticeMaxRetries))])
       | None => (Ret tt, s5, [ELog Info (LClosed true); ELog Error LMaxRetries])
       end).
Proof.
  intros Hrc Hmx Hops Hb6 s5 n6.
  destruct (run_closes W ops n s ltac:(lia) Hops) as (Ha & Hn & Hrc5 & Hmx5 & Hbr5).
  fold s5 in Hrc5, Hmx5, Hbr5. rewrite Hrc, Hmx in *.
  change (Z.to_nat (5 - 0)) with 5 in *.
  split.
  - intros Hle. rewrite Ha, Hn, Hrc5.
    repeat split; [lia| |lia]. destruct (telegramBridge s); lia.
  - intros H5. rewrite H5 in *.
    assert (Hge : (maxRetries s5 ≤ retryCount s5)%Z) by (rewrite Hrc5; cbn; lia).
    destruct (batch_ceiling W n6 s5 b6 Hb6 Hge) as (Ha6 & Hd6 & Hn6 & Hs6).
    rewrite (connection_update_ceiling W n6 s5 b6 Hb6 Hge).
    rewrite Hbr5 in *. repeat split; try done.
    + rewrite Hn. by destruct (telegramBridge s).
Qed.

Lemma ceiling_after_five_retries_witness :
  attempts (run calm five_failed_reconnects 16 initialized_bot).2 = 5.
Proof.
  assert (H : transient_close calm (batch_of_update close_unknown)).
  { exists close_unknown. repeat split. intros (o & Ho & _). discriminate Ho. }
  assert (Hops : Forall (λ o, transient_close_op calm o || between_closes o = true)
                        five_failed_reconnects)
    by (by repeat constructor).
  exact (proj1 (proj2 (ceiling_after_five_retries calm 16 initialized_bot
                         five_failed_reconnects (batch_of_update close_unknown)
                         eq_refl eq_refl Hops H) eq_refl)).
Defined.

(** C3 as the spec states it fails without a bridge: after five retries the
    sixth transient close makes no attempt, but no notice is sent at all. *)
Lemma ceiling_notice_counterexample :
  let r5 := run calm (OpBatch <$> replicate 5 (batch_of_update close_unknown))
                0 new_bot in
  transient_close calm (batch_of_update close_unknown) ∧
  retryCount new_bot = 0%Z ∧ maxRetries new_bot = 5%Z ∧
  attempts r5.2 = 5 ∧
  notices (trace (process_batch (batch_of_update close_unknown) calm
                    (length r5.2) r5.1)) ≠ 1.
Proof.
  split; [|by vm_compute].
  exists close_unknown. repeat split. intros (o & Ho & _). discriminate Ho.
Qed.

(** ** The open event *)

(** With [connection = 'open'], after the QR stage only the open stage does
    anything. *)
Lemma handleConnectionUpdate_open W n s u :
  connection u = Some Open →
  result (handle_qr u W n s) = Ret tt →
  handleConnectionUpdate u W n s =
    (result (handle_open u W (n + length (trace (handle_qr u W n s))) s),
     final (handle_open u W (n + length (trace (handle_qr u W n s))) s),
     trace (handle_qr u W n s) ++
     trace (handle_open u W (n + length (trace (handle_qr u W n s))) s)).
Proof.
  intros Hc Hq. unfold handleConnectionUpdate.
  rewrite (bind_returns _ _ _ _ _ _ _ _ (handle_qr_returns _ _ _ _ Hq)).
  set (n1 := n + length _). cbn [result final trace fst snd].
  assert (Hclose : ∀ n', handle_close u W n' s = (Ret tt, s, []))
    by (intros; unfold handle_close; by rewrite Hc).
  rewrite (bind_returns _ _ _ _ _ _ _ _ (Hclose n1)).
  cbn [length app result final trace fst snd]. rewrite Nat.add_0_r.
  destruct (handle_open u W n1 s) as [[[[]|e] s1] t1] eqn:E.
  - rewrite (bind_returns _ _ _ _ _ _ _ _ E).
    unfold handle_connecting. rewrite Hc. cbn. by rewrite app_nil_r.
  - by rewrite (bind_throws _ _ _ _ _ _ _ _ E).
Qed.

(** The open stage resets the counter before anything that can fail, once
    [this.sock] has been read. *)
Lemma handle_open_resets W n s u :
  connection u = Some Open → is_Some (sock s) →
  retryCount (final (handle_open u W n s)) = 0%Z ∧
  maxRetries (final (handle_open u W n s)) = maxRetries s.
Proof.
  intros Hc [h Hh]. unfold handle_open. rewrite Hc.
  destruct s as [sk st mh ml br d ini rc mx]. cbn in Hh. subst sk.
  unfold_methods. unfold_monad. cbn.
  destruct ml; [|by cbn].
  cbn. destruct (fails W _ LoadModules); [by cbn|]. cbn.
  destruct (cfg_telegram_enabled W _); [|by cbn].
  cbn. destruct br; case_calls; done.
Qed.

#[global] Instance counter_at_rest_composes : Composes counter_at_rest.
Proof.
  split.
  - intros s. by split.
  - intros s t1 s1 t2 s2 [M1 H1] [M2 H2]. split; [congruence|auto].
Qed.

Ltac at_rest_leaf :=
  idtac;
  let W := fresh "W" in let n := fresh "n" in let s := fresh "s" in
  intros W n s;
  unfold log, delay, ext, modify;
  repeat match goal with
         | |- context [fails ?W ?n ?c] => destruct (fails W n c)
         end;
  cbn; by split.

Lemma startConnection_at_rest : keeps counter_at_rest startConnection.
Proof.
  intros W n s. destruct (startConnection_frame W n s) as [_ (Hrc & Hmx & _)].
  split; [exact Hmx|congruence].
Qed.

Lemma handle_close_at_rest W u :
  (connection u = Some Close → shouldReconnect W u = false) →
  keeps_in W counter_at_rest (handle_close u).
Proof.
  intros Hu n s. destruct (connection u) as [[]|] eqn:Hc;
    try (unfold handle_close; rewrite Hc; by split).
  rewrite (handle_close_logged_out _ _ _ _ Hc (Hu eq_refl)).
  by destruct (telegramBridge s).
Qed.

(** An operation that starts no retry leaves a counter that is 0 at 0. *)
Lemma no_retry_op_at_rest W o :
  no_retry_op W o = true → keeps_in W counter_at_rest (perform o).
Proof.
  intros Ho.
  pose proof (keeps_the_sock counter_at_rest) as Hsock.
  pose proof startConnection_at_rest as Hstart.
  assert (Hcu : ∀ u, (connection u = Some Close → shouldReconnect W u = false) →
                     keeps_in W counter_at_rest (handleConnectionUpdate u)).
  { intros u Hu. unfold handleConnectionUpdate.
    apply keeps_in_bind; [typeclasses eauto| |intros _].
    { apply keeps_in_of_keeps. unfold handle_qr. keeps_walk_by at_rest_leaf. }
    apply keeps_in_bind; [typeclasses eauto| |intros _].
    { by apply handle_close_at_rest. }
    apply keeps_in_of_keeps. unfold handle_open, handle_connecting.
    keeps_walk_by at_rest_leaf. }
  assert (Hup : ∀ u, update_of o = Some u →
                     connection u = Some Close → shouldReconnect W u = false).
  { intros u Hu Hc. unfold no_retry_op in Ho. rewrite Hu, Hc in Ho.
    by apply negb_true_iff in Ho. }
  destruct o; cbn [perform update_of] in *.
  - apply keeps_in_of_keeps. unfold initialize. keeps_walk_by at_rest_leaf.
  - by apply keeps_in_of_keeps.
  - change (process_batch b)
      with (bind (on_connection_update b) (λ _, after_connection_update b)).
    apply keeps_in_bind; [typeclasses eauto| |intros _].
    + unfold on_connection_update.
      destruct (ev_connection_update b) as [u|]; [by apply Hcu, Hup|].
      apply keeps_in_of_keeps, keeps_ret. typeclasses eauto.
    + intros n s. destruct (after_connection_update_quiet b W n s) as [_ <-].
      by split.
  - by apply Hcu, Hup.
  - apply keeps_in_of_keeps. unfold getMessage. keeps_walk_by at_rest_leaf.
  - apply keeps_in_of_keeps. unfold sendMessage. keeps_walk_by at_rest_leaf.
  - apply keeps_in_of_keeps. unfold shutdown. keeps_walk_by at_rest_leaf.
Qed.

(** C4, as the code has it. Take an open event delivered by a handle
    ([this.sock] is set). If its QR stage does not complete (the update
    also carries a QR code that cannot be shown), the handler ends there
    and the object, counter included, is left as it was. If it completes
    (always, when the update carries no QR code), handling the open leaves
    [retryCount = 0] whatever it was before and whatever fails later in the
    handler; whatever follows short of a transient close (further opens,
    ['connecting'] updates, QR codes, logouts, batches of other kinds, any
    method call) leaves it at 0, and the next transient close computes its
    backoff with [retryCount = 1]: it announces attempt 1, waits
    [min(1000 * 2^1, 30000)] ms, makes one attempt and leaves the counter
    at 1. *)
Theorem open_resets_retryCount W n s u mid n' b :
  connection u = Some Open →
  is_Some (sock s) →
  (0 < maxRetries s)%Z →
  Forall (λ o, no_retry_op W o = true) mid →
  transient_close W b →
  let s1 := final (handleConnectionUpdate u W n s) in
  let s2 := (run W mid n' s1).1 in
  (¬ qr_shown W n s u → s1 = s) ∧
  (qr_shown W n s u →
     retryCount s1 = 0%Z ∧
     retryCount s2 = 0%Z ∧
     maxRetries s2 = maxRetries s ∧
     ∀ n'', (∃ t, trace (process_batch b W n'' s2) =
                  [ELog Info (LClosed true);
                   ELog Info (LReconnecting (Z.min (1000 * 2 ^ 1) 30000) 1
                                            (maxRetries s));
                   EDelay (Z.min (1000 * 2 ^ 1) 30000)] ++ t ∧
                  attempts t = 1 ∧ delays t = []) ∧
            retryCount (final (process_batch b W n'' s2)) = 1%Z).
Proof.
  intros Hc Hs Hmx Hmid Hb s1 s2. split.
  { intros Hq. rewrite <- handle_qr_result in Hq. subst s1.
    destruct (result (handle_qr u W n s)) as [[]|e] eqn:E; [done|].
    rewrite (handleConnectionUpdate_qr_throws _ _ _ _ _ E).
    by destruct (handle_qr_quiet u W n s) as [_ <-]. }
  intros Hq%handle_qr_result.
  assert (H1 : retryCount s1 = 0%Z ∧ maxRetries s1 = maxRetries s).
  { subst s1. rewrite (handleConnectionUpdate_open _ _ _ _ Hc Hq).
    by apply handle_open_resets. }
  destruct H1 as [Hrc1 Hmx1].
  assert (H2 : retryCount s2 = 0%Z ∧ maxRetries s2 = maxRetries s).
  { destruct (run_keeps_in W counter_at_rest mid n' s1) as [Hm Hr].
    { eapply Forall_impl; [exact Hmid|]. intros o Ho.
      by apply no_retry_op_at_rest. }
    fold s2 in Hm, Hr. split; [by apply Hr|congruence]. }
  destruct H2 as [Hrc2 Hmx2].
  split; [exact Hrc1|]. split; [exact Hrc2|]. split; [exact Hmx2|].
  intros n''. destruct Hb as (u' & Hb & Hc' & Hqr & Hr).
  assert (Hq' : result (handle_qr u' W n'' s2) = Ret tt)
    by (by rewrite handle_qr_falsy).
  destruct (close_retry_steps W n'' s2 u' Hc' Hq' Hr) as (Heq & _ & _ & Ha & Hd);
    [lia|].
  rewrite handle_qr_falsy in Heq, Ha, Hd by done.
  cbn [trace snd length app] in Heq, Ha, Hd.
  rewrite ?Hrc2 in Heq, Ha, Hd. rewrite Hmx2 in Heq.
  change (0 + 1)%Z with 1%Z in Heq, Ha, Hd.
  destruct (process_batch_split W n'' s2 b) as (r & t & -> & Ht).
  apply quiet_trace in Ht as (Ha' & _ & _ & _ & Hd').
  unfold on_connection_update. rewrite Hb, Heq.
  cbn [trace final fst snd].
  split.
  - eexists. split; [reflexivity|].
    unfold attempts in *. by rewrite count_app, delays_app, Ha, Ha', Hd, Hd'.
  - destruct (startConnection_frame W (n'' + 0 + 3) (set_retryCount 1 s2))
      as [_ (Hrc' & _)].
    exact Hrc'.
Qed.

Lemma initialized_bot_run :
  run calm [OpInitialize] 0 new_bot =
    (initialized_bot,
     [ELog Info LInitializing; ECall ConnectDb None;
      ELog Info LDatabaseConnected; ECall NewMessageHandler None;
      ECall NewModuleLoader None; ELog Info LUsingFileAuth;
      ECall UseMultiFileAuthState None; ECall FetchLatestBaileysVersion None;
      ELog Info LUsingVersion; ECall MakeInMemoryStore None;
      ECall MakeCacheableSignalKeyStore None; ECall MakeWASocket None;
      ECall (StoreBind 11) None; ECall (EvProcess 11) None;
      ELog Info LConnectionStarted; ELog Info LInitComplete]).
Proof. reflexivity. Qed.

Lemma open_resets_retryCount_witness :
  retryCount (final (handleConnectionUpdate open_update calm 16
                       (set_retryCount 3 initialized_bot))) = 0%Z.
Proof.
  assert (H : transient_close calm (batch_of_update close_unknown)).
  { exists close_unknown. repeat split. intros (o & Ho & _). discriminate Ho. }
  assert (Hs : is_Some (sock (set_retryCount 3 initialized_bot)))
    by (eexists; reflexivity).
  assert (Hq : qr_shown calm 16 (set_retryCount 3 initialized_bot) open_update)
    by (by left).
  assert (Hm : (0 < maxRetries (set_retryCount 3 initialized_bot))%Z)
    by reflexivity.
  assert (Hmid : Forall (λ o, no_retry_op calm o = true)
                   [OpBatch (batch_of_update connecting_update);
                    OpConnectionUpdate open_update; OpShutdown])
    by (by repeat constructor).
  exact (proj1 (proj2 (open_resets_retryCount calm 16
                         (set_retryCount 3 initialized_bot)
                         open_update _ 40 (batch_of_update close_unknown)
                         eq_refl Hs Hm Hmid H) Hq)).
Defined.

(** C4 as the spec states it fails: an open that also carries a QR code the
    bridge cannot send ends in the QR stage, before the counter is reset;
    [retryCount] stays 3. *)
Lemma open_resets_counterexample :
  connection open_with_qr = Some Open ∧
  ¬ open_resets qr_send_fails 30 (set_retryCount 3 bridged_bot) open_with_qr ∧
  handleConnectionUpdate open_with_qr qr_send_fails 30
    (set_retryCount 3 bridged_bot) =
    (Throw (External 3), set_retryCount 3 bridged_bot,
     [ELog Info LQrReceived;
      ECall (SendQRCode 19 "2@code") (Some (External 3))]).
Proof.
  split; [reflexivity|]. split; [|reflexivity].
  intros Hspec. specialize (Hspec eq_refl). discriminate Hspec.
Qed.

(** ** The bridge *)



(** The open stage keeps [bridge_once]: the constructor runs only without a
    bridge, and [initialize] only after the constructor returned. *)
Lemma handle_open_bridge_once u : keeps bridge_once (handle_open u).
Proof.
  intros W n s. unfold handle_open.
  destruct (connection u) as [[]|]; try apply rel_nil.
  destruct s as [sk st mh ml br d ini rc mx].
  unfold_methods. unfold_monad. unfold bridge_once. cbn.
  destruct sk; [|by destruct br].
  cbn. destruct ml; [|by destruct br].
  cbn. destruct (fails W _ LoadModules); [by destruct br|]. cbn.
  destruct (cfg_telegram_enabled W _); [|by destruct br].
  cbn. destruct br; case_calls; auto.
Qed.

Lemma perform_bridge_once o : keeps bridge_once (perform o).
Proof.
  pose proof (keeps_the_sock bridge_once) as Hs.
  assert (Hsc : keeps bridge_once startConnection)
    by (unfold startConnection, setupEventHandlers; keeps_walk).
  assert (Hcu : ∀ u, keeps bridge_once (handleConnectionUpdate u)).
  { intros u. pose proof (handle_open_bridge_once u).
    unfold handleConnectionUpdate, handle_qr, handle_close, handle_connecting.
    keeps_walk. }
  destruct o; cbn [perform].
  - unfold initialize. keeps_walk.
  - exact Hsc.
  - unfold process_batch, on_connection_update, on_creds_update,
      on_messages_upsert, on_messages_update,
      on_message_receipt_update, on_messages_reaction, on_presence_update,
      on_chats_update, on_chats_delete, on_contacts_update, on_contact_update,
      profilePictureUrl_or_null, on_contacts_upsert, on_call,
      on_messaging_history_set, on_labels_association, on_labels_edit.
    keeps_walk.
  - apply Hcu.
  - unfold getMessage. keeps_walk.
  - unfold sendMessage. keeps_walk.
  - unfold shutdown. keeps_walk.
Qed.







(** ** Dispatch within one batch *)

Lemma process_batch_run_kinds W n s b :
  process_batch b W n s = run_kinds kinds b W n s.
Proof.
  unfold process_batch, run_kinds, kinds. cbn [for_of dispatch].
  assert (Hret : ∀ (m : M unit) W n s, bind m (λ _, ret tt) W n s = m W n s).
  { intros m W' n' s'. unfold bind, ret.
    destruct (m W' n' s') as [[[[]|e] s1] t1]; by rewrite ?app_nil_r. }
  assert (Hcong : ∀ (m : M unit) (f g : M unit) W n s,
             (∀ W n s, f W n s = g W n s) →
             bind m (λ _, f) W n s = bind m (λ _, g) W n s).
  { intros m f g W' n' s' Hfg. unfold bind.
    destruct (m W' n' s') as [[[[]|e] s1] t1]; by rewrite ?Hfg. }
  revert W n s.
  repeat (intros W n s; apply Hcong; clear W n s).
  intros W n s. symmetry. apply Hret.
Qed.

Lemma run_kinds_app W n s b ks1 ks2 :
  run_kinds (ks1 ++ ks2) b W n s =
    bind (run_kinds ks1 b) (λ _, run_kinds ks2 b) W n s.
Proof.
  revert W n s. induction ks1 as [|k ks1 IH]; intros W n s.
  - unfold run_kinds, bind, ret. cbn. rewrite Nat.add_0_r.
    by destruct (for_of ks2 _ W n s) as [[r s1] t1].
  - cbn [app]. unfold run_kinds in *. cbn [for_of]. unfold bind in *.
    destruct (dispatch k b W n s) as [[[[]|e] s1] t1]; [|reflexivity].
    rewrite IH.
    destruct (for_of ks1 _ W (n + length t1) s1) as [[[[]|e] s2] t2];
      [|reflexivity].
    rewrite length_app, Nat.add_assoc.
    destruct (for_of ks2 _ W _ s2) as [[r3 s3] t3]. by rewrite app_assoc.
Qed.

(** A prefix of handlers that throws makes the whole list throw; a list
    that returns has every prefix return. *)
Lemma run_kinds_prefix_throws W n s b ks1 ks2 e :
  result (run_kinds ks1 b W n s) = Throw e →
  run_kinds (ks1 ++ ks2) b W n s = run_kinds ks1 b W n s.
Proof.
  intros H. rewrite run_kinds_app. unfold bind.
  by destruct (run_kinds ks1 b W n s) as [[[[]|e'] s1] t1].
Qed.

Lemma run_kinds_prefix_returns W n s b ks1 ks2 :
  result (run_kinds (ks1 ++ ks2) b W n s) = Ret tt →
  result (run_kinds ks1 b W n s) = Ret tt.
Proof.
  rewrite run_kinds_app. intros H.
  by apply bind_ret_inv in H as ([] & H & _).
Qed.

(** A handler that throws where the callback runs it ends the callback. *)
Lemma run_kinds_throws_at W n s b k e :
  reached W n s b k → handler_result W n s b k = Throw e →
  result (run_kinds (kinds_before k ++ [k]) b W n s) = Throw e.
Proof.
  unfold reached, handler_result. intros Hr He. rewrite run_kinds_app.
  destruct (run_kinds (kinds_before k) b W n s) as [[r s1] t1] eqn:E.
  cbn in Hr, He. subst r. rewrite (bind_returns _ _ _ _ _ _ _ _ E).
  cbn [result fst]. unfold run_kinds at 1. cbn [for_of]. unfold bind at 1.
  by destruct (dispatch k b W (n + length t1) s1) as [[[[]|e'] s2] t2].
Qed.

(** The order of the tests: of two kinds, one is tested before the other. *)
Lemma kinds_order k1 k2 :
  k1 ≠ k2 →
  (∃ l, kinds_before k1 = kinds_before k2 ++ k2 :: l ∧ In k2 (kinds_before k1)) ∨
  (∃ l, kinds_before k2 = (kinds_before k1 ++ [k1]) ++ l ∧
        ¬ In k2 (kinds_before k1)).
Proof.
  intros Hne.
  destruct k1, k2; try done;
    first [ left; eexists; split; [reflexivity|cbn; tauto]
          | right; eexists; split; [reflexivity|cbn; intuition discriminate] ].
Qed.

Lemma kinds_split k : ∃ l, kinds = (kinds_before k ++ [k]) ++ l.
Proof. destruct k; by eexists. Qed.

(** A callback that returns ran every handler. *)
Lemma process_batch_returns_all W n s b k :
  result (process_batch b W n s) = Ret tt → reached W n s b k.
Proof.
  rewrite process_batch_run_kinds. destruct (kinds_split k) as [l ->].
  intros H. unfold reached.
  by apply run_kinds_prefix_returns, run_kinds_prefix_returns in H.
Qed.

Lemma run_kinds_one W n s b k :
  run_kinds [k] b W n s = dispatch k b W n s.
Proof.
  unfold run_kinds. cbn [for_of]. unfold bind, ret.
  destruct (dispatch k b W n s) as [[[[]|e] s1] t1]; by rewrite ?app_nil_r.
Qed.

(** Where the callback reaches a handler, it runs it next. *)
Lemma run_kinds_snoc W n s b k :
  reached W n s b k →
  result (run_kinds (kinds_before k ++ [k]) b W n s) = handler_result W n s b k ∧
  trace (run_kinds (kinds_before k ++ [k]) b W n s) =
    trace (run_kinds (kinds_before k) b W n s) ++ handler_trace W n s b k.
Proof.
  unfold reached, handler_result, handler_trace. intros Hr.
  rewrite run_kinds_app.
  destruct (run_kinds (kinds_before k) b W n s) as [[r s1] t1] eqn:E.
  cbn in Hr. subst r. rewrite (bind_returns _ _ _ _ _ _ _ _ E).
  by rewrite run_kinds_one.
Qed.

Lemma reached_handled W n s b k : reached W n s b k → handled W n s b k.
Proof.
  intros Hr. split; [exact Hr|].
  destruct (run_kinds_snoc W n s b k Hr) as [_ Ht].
  rewrite process_batch_run_kinds. destruct (kinds_split k) as [l ->].
  rewrite run_kinds_app. unfold bind at 1.
  destruct (run_kinds (kinds_before k ++ [k]) b W n s) as [[[[]|e] s1] t1].
  - destruct (run_kinds l b W (n + length t1) s1) as [[r2 s2] t2].
    cbn [trace snd] in *. rewrite Ht, <- app_assoc. by eexists.
  - cbn [trace snd] in *. exists []. by rewrite Ht, app_nil_r.
Qed.

(** The callback goes on to the next test when a handler returns. *)
Lemma reached_next W n s b k k' :
  kinds_before k' = kinds_before k ++ [k] →
  reached W n s b k → (∀ e, handler_result W n s b k ≠ Throw e) →
  reached W n s b k'.
Proof.
  intros Hk Hr Hne. unfold reached. rewrite Hk.
  destruct (run_kinds_snoc W n s b k Hr) as [-> _].
  destruct (handler_result W n s b k) as [[]|e]; [done|by destruct (Hne e)].
Qed.

(** With no handler failing, the callback reaches every test and returns. *)
Lemma no_failure_returns W n s b :
  (∀ k e, reached W n s b k → handler_result W n s b k ≠ Throw e) →
  result (process_batch b W n s) = Ret tt.
Proof.
  intros Hok.
  assert (Hstep : ∀ k k', kinds_before k' = kinds_before k ++ [k] →
                          reached W n s b k → reached W n s b k').
  { intros k k' Hk Hr. apply (reached_next W n s b k k' Hk Hr).
    intros e. by apply Hok. }
  assert (H1 : reached W n s b KConnectionUpdate) by reflexivity.
  pose proof (Hstep KConnectionUpdate KCredsUpdate eq_refl H1) as H2.
  pose proof (Hstep KCredsUpdate KMessagesUpsert eq_refl H2) as H3.
  pose proof (Hstep KMessagesUpsert KMessagesUpdate eq_refl H3) as H4.
  pose proof (Hstep KMessagesUpdate KMessageReceiptUpdate eq_refl H4) as H5.
  pose proof (Hstep KMessageReceiptUpdate KMessagesReaction eq_refl H5) as H6.
  pose proof (Hstep KMessagesReaction KPresenceUpdate eq_refl H6) as H7.
  pose proof (Hstep KPresenceUpdate KChatsUpdate eq_refl H7) as H8.
  pose proof (Hstep KChatsUpdate KChatsDelete eq_refl H8) as H9.
  pose proof (Hstep KChatsDelete KContactsUpdate eq_refl H9) as H10.
  pose proof (Hstep KContactsUpdate KContactsUpsert eq_refl H10) as H11.
  pose proof (Hstep KContactsUpsert KCall eq_refl H11) as H12.
  pose proof (Hstep KCall KMessagingHistorySet eq_refl H12) as H13.
  pose proof (Hstep KMessagingHistorySet KLabelsAssociation eq_refl H13) as H14.
  pose proof (Hstep KLabelsAssociation KLabelsEdit eq_refl H14) as H15.
  rewrite process_batch_run_kinds.
  change kinds with (kinds_before KLabelsEdit ++ [KLabelsEdit]).
  destruct (run_kinds_snoc W n s b KLabelsEdit H15) as [-> _].
  pose proof (Hok KLabelsEdit) as Hne. specialize (λ e, Hne e H15).
  destruct (handler_result W n s b KLabelsEdit) as [[]|e];
    [done|by destruct (Hne e)].
Qed.

Lemma returns_no_failure W n s b k :
  result (process_batch b W n s) = Ret tt →
  handler_result W n s b k = Ret tt.
Proof.
  intros H. pose proof (process_batch_returns_all W n s b k H) as Hr.
  destruct (run_kinds_snoc W n s b k Hr) as [<- _].
  rewrite process_batch_run_kinds in H. destruct (kinds_split k) as [l Hl].
  rewrite Hl in H. by apply run_kinds_prefix_returns in H.
Qed.

(** C6, as the code has it. The callback is the handlers of the fifteen
    kinds run one after the other in the order of its tests, with no [try]
    around any of them, and nothing else: a handler the callback reaches is
    run, and its effects follow those of the handlers before it. When no
    handler fails, the callback returns and has handled every kind. When
    the handler of a kind [k1] throws, the callback is over: it ends with
    that error, having done exactly what the handlers up to [k1] did (it
    logs nothing of its own), the handlers tested before [k1] have run, and
    the handler of no kind tested after [k1] runs. *)
Theorem dispatch_stops_at_failure W n s b :
  process_batch b W n s = run_kinds kinds b W n s ∧
  (∀ k, reached W n s b k ↔ handled W n s b k) ∧
  ((∀ k e, reached W n s b k → handler_result W n s b k ≠ Throw e) ↔
   result (process_batch b W n s) = Ret tt) ∧
  (result (process_batch b W n s) = Ret tt →
     ∀ k, handled W n s b k ∧ handler_result W n s b k = Ret tt) ∧
  (∀ k1 e,
     reached W n s b k1 → handler_result W n s b k1 = Throw e →
     process_batch b W n s = run_kinds (kinds_before k1 ++ [k1]) b W n s ∧
     result (process_batch b W n s) = Throw e ∧
     trace (process_batch b W n s) =
       trace (run_kinds (kinds_before k1) b W n s) ++
       handler_trace W n s b k1 ∧
     ∀ k2, k2 ≠ k1 → (handled W n s b k2 ↔ In k2 (kinds_before k1))).
Proof.
  assert (Hh : ∀ k, reached W n s b k ↔ handled W n s b k)
    by (intros k; split; [apply reached_handled|by intros [? _]]).
  split; [apply process_batch_run_kinds|]. split; [exact Hh|].
  split; [split|split].
  - apply no_failure_returns.
  - intros Hret k e _ He. rewrite (returns_no_failure W n s b k Hret) in He.
    discriminate He.
  - intros Hret k. split; [|by apply returns_no_failure].
    by apply Hh, process_batch_returns_all.
  - intros k1 e Hr He.
    pose proof (run_kinds_throws_at _ _ _ _ _ _ Hr He) as Hthrow.
    assert (Hpb : process_batch b W n s
                  = run_kinds (kinds_before k1 ++ [k1]) b W n s).
    { rewrite process_batch_run_kinds. destruct (kinds_split k1) as [l Hl].
      rewrite Hl at 1. by apply run_kinds_prefix_throws with e. }
    split; [exact Hpb|]. split; [by rewrite Hpb|].
    split; [rewrite Hpb; by apply run_kinds_snoc|].
    intros k2 Hne. rewrite <- Hh. unfold reached in *.
    destruct (kinds_order k1 k2) as [(l & Hl & Hin)|(l & Hl & Hnin)]; [done| |].
    + split; [done|]. intros _. rewrite Hl in Hr.
      by apply run_kinds_prefix_returns in Hr.
    + split; [|done]. rewrite Hl.
      rewrite (run_kinds_prefix_throws _ _ _ _ _ _ e Hthrow), Hthrow. discriminate.
Qed.

Lemma dispatch_stops_at_failure_witness :
  process_batch messages_and_contacts messages_fail 16 initialized_bot =
    (Throw (External 1), initialized_bot,
     [ECall (HandleMessages ["m1"]) (Some (External 1))]).
Proof.
  destruct (proj2 (proj2 (proj2 (proj2
              (dispatch_stops_at_failure messages_fail 16 initialized_bot
                 messages_and_contacts))))
              KMessagesUpsert (External 1) eq_refl eq_refl) as (H & _).
  exact H.
Defined.

(** C6 as the spec states it fails: when the message handler throws on the
    messages of a batch, the contact updates of the same batch are never
    looked at (in a calm world their picture would be looked up). *)
Lemma isolated_dispatch_counterexample :
  ¬ isolated_dispatch messages_fail 16 initialized_bot messages_and_contacts ∧
  trace (process_batch messages_and_contacts messages_fail 16 initialized_bot)
    = [ECall (HandleMessages ["m1"]) (Some (External 1))] ∧
  trace (process_batch messages_and_contacts calm 16 initialized_bot)
    = [ECall (HandleMessages ["m1"]) None;
       ECall (ProfilePictureUrl 11 "alice@s.whatsapp.net") None].
Proof.
  split; [|by split].
  intros H.
  specialize (H KMessagesUpsert KContactsUpdate (External 1)
                ltac:(discriminate) eq_refl eq_refl eq_refl eq_refl).
  discriminate H.
Qed.

(** ** Credentials first? *)

Lemma bind_ext {A B} (m m' : M A) (f g : A → M B) W n s :
  (∀ W n s, m W n s = m' W n s) →
  (∀ a W n s, f a W n s = g a W n s) →
  bind m f W n s = bind m' g W n s.
Proof.
  intros Hm Hf. unfold bind. rewrite Hm.
  destruct (m' W n s) as [[[a|e] s1] t1]; by rewrite ?Hf.
Qed.

#[global] Instance any_state_preorder : PreOrder (λ _ _ : HyperWaBot, True).
Proof. by split. Qed.

Ltac no_save_leaf :=
  idtac;
  let W := fresh "W" in let n := fresh "n" in let s := fresh "s" in
  intros W n s;
  unfold log, delay, ext, modify;
  repeat match goal with
         | |- context [fails ?W ?n ?c] => destruct (fails W n c)
         end;
  cbn; (split; [repeat constructor|done]).

(** Only the handler of the credentials calls [saveCreds]. *)
Lemma dispatch_no_save_creds k b :
  k ≠ KCredsUpdate →
  keeps (frame (λ e, negb (is_save_creds e)) (λ _ _, True)) (dispatch k b).
Proof.
  intros Hk.
  destruct k; try done; cbn [dispatch]; unfold_router; unfold_methods;
    keeps_walk_by no_save_leaf.
Qed.

Lemma later_kinds_no_save_creds b :
  keeps (frame (λ e, negb (is_save_creds e)) (λ _ _, True))
        (run_kinds kinds_after_creds b).
Proof.
  unfold run_kinds, kinds_after_creds, kinds. cbn [drop for_of].
  repeat (apply keeps_bind; [typeclasses eauto| |intros _]);
    first [ by apply dispatch_no_save_creds
          | apply keeps_ret; typeclasses eauto ].
Qed.

Lemma no_save_creds_trace t :
  Forall (λ e, negb (is_save_creds e) = true) t →
  Forall (λ e, is_save_creds e = false) t.
Proof.
  intros H. eapply Forall_impl; [exact H|]. intros e He.
  by apply negb_true_iff.
Qed.

(** C8, as the code has it. In a batch with a credential update the
    connection-state update is handled first, reconnect included, and it
    does not persist anything; if that handler throws, the callback is over
    and [saveCreds] is never called. Otherwise [saveCreds] is the next
    thing the callback does; if it fails the callback ends there, and if it
    returns the handlers of all the later kinds follow, none of which calls
    [saveCreds] again: the handler of no kind but the connection-state
    update starts before [saveCreds] has returned. With no connection-state
    update in the batch, [saveCreds] is the first thing the callback
    does. *)
Theorem creds_persisted_before_later_kinds W n s b :
  present KCredsUpdate b = true →
  let c := on_connection_update b W n s in
  let n1 := n + length (trace c) in
  let later := run_kinds kinds_after_creds b W (n1 + 1) (final c) in
  Forall (λ e, is_save_creds e = false) (trace c) ∧
  (∀ e, result c = Throw e → process_batch b W n s = c) ∧
  (result c = Ret tt →
     process_batch b W n s =
       match fails W n1 SaveCreds with
       | Some e => (Throw e, final c, trace c ++ [ECall SaveCreds (Some e)])
       | None => (result later, final later,
                  trace c ++ ECall SaveCreds None :: trace later)
       end ∧
     Forall (λ e, is_save_creds e = false) (trace later)) ∧
  (ev_connection_update b = None →
     c = (Ret tt, s, []) ∧
     ∃ t, trace (process_batch b W n s)
          = ECall SaveCreds (fails W n SaveCreds) :: t).
Proof.
  intros Hp. cbn in Hp. apply bool_decide_eq_true in Hp as [p Hp].
  assert (Hsplit : process_batch b W n s =
            bind (on_connection_update b)
                 (λ _, bind (on_creds_update b)
                            (λ _, run_kinds kinds_after_creds b)) W n s).
  { rewrite process_batch_run_kinds.
    change kinds with ([KConnectionUpdate] ++ [KCredsUpdate] ++ kinds_after_creds).
    rewrite run_kinds_app.
    apply bind_ext; [intros; apply run_kinds_one|]. intros _ W' n' s'.
    rewrite run_kinds_app.
    apply bind_ext; [intros; apply run_kinds_one|done]. }
  intros c n1 later.
  assert (Hc : Forall (λ e, is_save_creds e = false) (trace c)).
  { apply no_save_creds_trace.
    by apply (dispatch_no_save_creds KConnectionUpdate b). }
  assert (Hret : result c = Ret tt →
            process_batch b W n s =
              match fails W n1 SaveCreds with
              | Some e => (Throw e, final c, trace c ++ [ECall SaveCreds (Some e)])
              | None => (result later, final later,
                         trace c ++ ECall SaveCreds None :: trace later)
              end).
  { intros Hr. rewrite Hsplit. subst later n1. revert Hr. subst c.
    destruct (on_connection_update b W n s) as [[r s1] t1] eqn:E.
    cbn [result final trace fst snd]. intros ->.
    rewrite (bind_returns _ _ _ _ _ _ _ _ E).
    unfold on_creds_update. rewrite Hp.
    pose proof (ext_outcome W (n + length t1) s1 SaveCreds) as Hext.
    destruct (fails W (n + length t1) SaveCreds) as [e|].
    - by rewrite (bind_throws _ _ _ _ _ _ _ _ Hext).
    - rewrite (bind_returns _ _ _ _ _ _ _ _ Hext). reflexivity. }
  split; [exact Hc|]. split; [|split].
  - intros e He. rewrite Hsplit. subst c.
    destruct (on_connection_update b W n s) as [[r s1] t1] eqn:E.
    cbn in He. subst r. by apply bind_throws.
  - intros Hr. split; [by apply Hret|].
    apply no_save_creds_trace, later_kinds_no_save_creds.
  - intros Hnone.
    assert (Hcn : c = (Ret tt, s, []))
      by (subst c; unfold on_connection_update; by rewrite Hnone).
    split; [exact Hcn|].
    rewrite Hret by (by rewrite Hcn). subst n1. rewrite Hcn.
    cbn [trace final snd fst length app]. rewrite Nat.add_0_r.
    destruct (fails W n SaveCreds); by eexists.
Qed.

Lemma creds_persisted_before_later_kinds_witness :
  ∃ r s', process_batch close_creds_messages calm 16 initialized_bot =
           (r, s', trace (on_connection_update close_creds_messages calm 16
                           initialized_bot)
                  ++ ECall SaveCreds None
                  :: trace (run_kinds kinds_after_creds close_creds_messages calm
                              (16 + length (trace (on_connection_update
                                                     close_creds_messages calm 16
                                                     initialized_bot)) + 1)
                              (final (on_connection_update close_creds_messages
                                        calm 16 initialized_bot)))).
Proof.
  destruct (creds_persisted_before_later_kinds calm 16 initialized_bot
              close_creds_messages eq_refl) as (_ & _ & H & _).
  destruct (H eq_refl) as [Heq _]. by eexists _, _.
Defined.

(** C8 as the spec states it fails: the connection-state update of a batch
    is handled before the credentials of that batch are persisted. *)
Lemma creds_persisted_first_counterexample :
  present KCredsUpdate connecting_and_creds = true ∧
  ¬ creds_persisted_first calm 16 initialized_bot connecting_and_creds ∧
  trace (process_batch connecting_and_creds calm 16 initialized_bot)
    = [ELog Info LConnecting; ECall SaveCreds None].
Proof.
  split; [reflexivity|]. split; [|reflexivity].
  intros H.
  exact (H KConnectionUpdate ltac:(discriminate) eq_refl eq_refl).
Qed.

(** ** [shutdown] *)

(** C7, as the code has it. [shutdown] never throws. It shuts the bridge
    down first, if there is one, then closes the handle, if there is one,
    inside one [try]: the first step that fails is logged and ends the
    teardown, so a failing [telegramBridge.shutdown()] leaves the handle
    open; only when the bridge step is absent or returns is [sock.end()]
    called. *)
Theorem shutdown_order W n s :
  result (shutdown W n s) = Ret tt ∧
  trace (shutdown W n s) =
    ELog Info LShuttingDown ::
    match telegramBridge s with
    | Some b =>
        match fails W (n + 1) (BridgeShutdown b) with
        | Some e => [ECall (BridgeShutdown b) (Some e); ELog Error (LShutdownError e)]
        | None =>
            ECall (BridgeShutdown b) None ::
            match sock s with
            | Some h =>
                match fails W (n + 2) (SockEnd (sock_id h)) with
                | Some e => [ECall (SockEnd (sock_id h)) (Some e);
                             ELog Error (LShutdownError e)]
                | None => [ECall (SockEnd (sock_id h)) None;
                           ELog Info LShutdownComplete]
                end
            | None => [ELog Info LShutdownComplete]
            end
        end
    | None =>
        match sock s with
        | Some h =>
            match fails W (n + 1) (SockEnd (sock_id h)) with
            | Some e => [ECall (SockEnd (sock_id h)) (Some e);
                         ELog Error (LShutdownError e)]
            | None => [ECall (SockEnd (sock_id h)) None;
                       ELog Info LShutdownComplete]
            end
        | None => [ELog Info LShutdownComplete]
        end
    end ∧
  (∀ b e, telegramBridge s = Some b →
          fails W (n + 1) (BridgeShutdown b) = Some e →
          final (shutdown W n s) = s ∧
          ∀ h r, ¬ In (ECall (SockEnd h) r) (trace (shutdown W n s))).
Proof.
  destruct s as [sk st mh ml br d ini rc mx].
  unfold_methods. unfold_monad. cbn.
  destruct br as [b|]; cbn; rewrite ?Nat.add_0_r.
  - destruct (fails W (n + 1) (BridgeShutdown b)) as [e|] eqn:Eb; cbn.
    + split; [done|]. split; [done|]. intros b' e' _ _. split; [done|].
      intros h r [H|[H|[H|[]]]]; discriminate.
    + destruct sk as [h|]; cbn; rewrite ?Nat.add_0_r, <- ?Nat.add_assoc;
        cbn [Nat.add].
      * destruct (fails W (n + 2) (SockEnd (sock_id h))); cbn;
          (split; [done|]; split; [done|]; intros b' e' [= <-] He; congruence).
      * split; [done|]. split; [done|]. intros b' e' [= <-] He. congruence.
  - destruct sk as [h|]; cbn; rewrite ?Nat.add_0_r.
    + destruct (fails W (n + 1) (SockEnd (sock_id h))); cbn;
        (split; [done|]; split; [done|]; intros b' e' [=]).
    + split; [done|]. split; [done|]. intros b' e' [=].
Qed.

Lemma shutdown_order_witness :
  final (shutdown bridge_shutdown_fails 25 bridged_bot) = bridged_bot.
Proof.
  exact (proj1 (proj2 (proj2 (shutdown_order bridge_shutdown_fails 25 bridged_bot))
                  19 (External 2) eq_refl eq_refl)).
Defined.

(** C7 as the spec states it fails: a bridge shutdown that throws ends the
    teardown, and the handle is never closed. *)
Lemma best_effort_shutdown_counterexample :
  ¬ best_effort_shutdown bridge_shutdown_fails 25 bridged_bot ∧
  trace (shutdown bridge_shutdown_fails 25 bridged_bot) =
    [ELog Info LShuttingDown; ECall (BridgeShutdown 19) (Some (External 2));
     ELog Error (LShutdownError (External 2))].
Proof.
  split; [|reflexivity].
  intros H. destruct (H _ eq_refl) as [r Hr].
  cbn in Hr. destruct Hr as [Hr|[Hr|[Hr|[]]]]; discriminate.
Qed.

(** ** [sendMessage] *)

(** C9, as the code has it. The guard of [sendMessage] is [!this.sock]:
    while no handle was ever created the call fails at once with the
    'socket not initialized' error, logged and re-thrown, and nothing is
    forwarded; as soon as a handle is stored the call is forwarded to it,
    once, whether or not that handle is still open ([this.sock] is never
    cleared), and a failure of the handle is logged and re-thrown to the
    caller; there is no retry. *)
Theorem sendMessage_forwards W n s jid content :
  sendMessage jid content W n s =
    match sock s with
    | None =>
        (Throw SocketNotInitialized, s,
         [ELog Error (LFailedSend SocketNotInitialized)])
    | Some h =>
        match fails W n (SockSendMessage (sock_id h) jid content) with
        | None =>
            (Ret tt, s, [ECall (SockSendMessage (sock_id h) jid content) None])
        | Some e =>
            (Throw e, s,
             [ECall (SockSendMessage (sock_id h) jid content) (Some e);
              ELog Error (LFailedSend e)])
        end
    end.
Proof.
  unfold_methods. unfold_monad. destruct (sock s) as [h|]; cbn; [|done].
  replace (n + 0) with n by lia.
  by destruct (fails W n (SockSendMessage (sock_id h) jid content)).
Qed.

(** C9 as the spec states it fails: after [shutdown] no handle is open, and
    [sendMessage] still forwards to the ended handle. *)
Lemma send_guarded_counterexample :
  no_open_handle shut_down_bot ∧
  ¬ send_guarded calm 19 shut_down_bot "jid" "hello" ∧
  sendMessage "jid" "hello" calm 19 shut_down_bot =
    (Ret tt, shut_down_bot, [ECall (SockSendMessage 11 "jid" "hello") None]).
Proof.
  split; [reflexivity|]. split; [|reflexivity].
  intros H. destruct (H eq_refl) as [Hr _]. discriminate Hr.
Qed.

(** ** The session store across reconnects *)

Lemma fresh_session_intro s h :
  sock s = Some {| sock_id := h; sock_ended := false |} →
  store s = Some {| contacts := ∅; messages := ∅; bound := Some h |} →
  fresh_session s.
Proof.
  intros Hsock Hstore. exists h.
  assert (Hinfo : ∀ jid, getContactInfo jid s
                         = if truthy jid then property_read ∅ (default "" jid)
                           else InfoNull).
  { intros [j|]; [|done]. unfold getContactInfo. rewrite Hstore.
    by destruct (truthy (Some j)). }
  split; [done|]. split; [done|]. split; [|split; [exact Hinfo|]].
  - intros j i W n. unfold getMessage, bind, gets, ret. rewrite Hstore. cbn.
    rewrite ext_outcome. rewrite lookup_empty.
    by destruct (fails W (n + 0) (StoreLoadMessage j i)) eqn:E;
      rewrite Nat.add_0_r in E; rewrite E.
  - intros jid c. rewrite Hinfo. destruct (truthy jid); [|done].
    unfold property_read. rewrite lookup_empty. by case_bool_decide.
Qed.




(** * Further properties of the code *)

(** ** The handle, once stored *)

#[global] Instance handle_kept_preorder : PreOrder handle_kept.
Proof.
  split.
  - intros s H. exact H.
  - intros s1 s2 s3 H12 H23 H. apply H23, H12, H.
Qed.

Ltac handle_kept_leaf :=
  idtac;
  let W := fresh "W" in let n := fresh "n" in let s := fresh "s" in
  intros W n s;
  unfold log, delay, ext, modify;
  repeat match goal with
         | |- context [fails ?W ?n ?c] => destruct (fails W n c)
         end;
  cbn; (split; [by apply Forall_true|]);
  unfold handle_kept; cbn; intros ?; first [assumption | by eexists].

Lemma perform_keeps_handle o :
  keeps (frame (λ _, true) handle_kept) (perform o).
Proof.
  destruct o; cbn [perform]; unfold_router; unfold_methods;
    keeps_walk_by handle_kept_leaf.
Qed.

(** X1. No method and no batch ever clears [this.sock]: once a handle is
    stored, the object holds a handle after any sequence of method calls
    and delivered batches (closes, logouts and [shutdown] included), and a
    [sendMessage] made then is always forwarded to the stored handle, never
    refused by the guard. *)
Theorem handle_never_cleared W ops n s jid content n' :
  is_Some (sock s) →
  ∃ h, sock (run W ops n s).1 = Some h ∧
       trace (sendMessage jid content W n' (run W ops n s).1) =
         ECall (SockSendMessage (sock_id h) jid content)
               (fails W n' (SockSendMessage (sock_id h) jid content)) ::
         match fails W n' (SockSendMessage (sock_id h) jid content) with
         | Some e => [ELog Error (LFailedSend e)]
         | None => []
         end.
Proof.
  intros Hs.
  destruct (run_keeps (frame (λ _, true) handle_kept) W ops n s) as [_ Hk].
  { apply Forall_forall. intros o _. apply perform_keeps_handle. }
  destruct (Hk Hs) as [h Hh]. exists h. split; [exact Hh|].
  unfold_methods. unfold_monad. rewrite Hh. cbn. rewrite Nat.add_0_r.
  by destruct (fails W n' (SockSendMessage (sock_id h) jid content)).
Qed.

Lemma handle_never_cleared_witness :
  ∃ h, sock (run calm [OpShutdown; OpBatch (batch_of_update (close_logged_out 401))]
                 16 initialized_bot).1 = Some h.
Proof.
  destruct (handle_never_cleared calm
              [OpShutdown; OpBatch (batch_of_update (close_logged_out 401))]
              16 initialized_bot "jid" "hello" 40 ltac:(by eexists))
    as (h & Hh & _).
  by exists h.
Defined.

(** ** The retry counter in any run *)

#[global] Instance retries_bounded_composes : Composes retries_bounded.
Proof.
  split.
  - intros s. split; [done|]. intros H. split; [done|constructor].
  - intros s t1 s1 t2 s2 [M1 H1] [M2 H2]. split; [congruence|].
    intros H. destruct (H1 H) as [B1 F1]. rewrite M1 in H2.
    destruct (H2 B1) as [B2 F2]. split; [done|]. by apply Forall_app.
Qed.

Ltac retries_leaf :=
  idtac;
  let W := fresh "W" in let n := fresh "n" in let s := fresh "s" in
  intros W n s;
  unfold log, ext, modify;
  repeat match goal with
         | |- context [fails ?W ?n ?c] => destruct (fails W n c)
         end;
  cbn; (split; [reflexivity|]); cbn; intros ?;
  (split; [lia|repeat constructor]).

Lemma quiet_but_attempts_backoff mx t :
  Forall (λ e, quiet_but_attempts e = true) t → Forall (backoff_timer mx) t.
Proof.
  intros H. eapply Forall_impl; [exact H|]. intros [l m|ms|c r]; cbn; done.
Qed.

Lemma handle_close_retries_bounded u : keeps retries_bounded (handle_close u).
Proof.
  intros W n s.
  destruct (connection u) as [[]|] eqn:Hc;
    try (unfold handle_close; rewrite Hc; apply rel_nil).
  destruct (shouldReconnect W u) eqn:Hr.
  - destruct (Z.ltb_spec (retryCount s) (maxRetries s)) as [Hlt|Hge].
    + rewrite (handle_close_retry _ _ _ _ Hc Hr Hlt). cbn [trace final fst snd].
      destruct (startConnection_frame W (n + 3)
                  (set_retryCount (retryCount s + 1) s))
        as [Hq (Hrc & Hmx & _)].
      cbn in Hrc, Hmx. split; [exact Hmx|]. intros Hb. rewrite Hrc.
      split; [lia|].
      repeat constructor; [|by apply quiet_but_attempts_backoff].
      exists (retryCount s + 1)%Z. split; [lia|done].
    + rewrite (handle_close_ceiling _ _ _ _ Hc Hr Hge).
      destruct (telegramBridge s); cbn; (split; [done|]); intros Hb;
        (split; [lia|repeat constructor]).
  - rewrite (handle_close_logged_out _ _ _ _ Hc Hr).
    destruct (telegramBridge s); cbn; (split; [done|]); intros Hb;
      (split; [lia|repeat constructor]).
Qed.

Lemma perform_retries_bounded o : keeps retries_bounded (perform o).
Proof.
  pose proof handle_close_retries_bounded as Hclose.
  destruct o; cbn [perform]; unfold_router;
    unfold handleConnectionUpdate, handle_qr, handle_open,
      handle_connecting, initialize, startConnection, setupEventHandlers,
      the_sock, sendMessage, shutdown, getMessage;
    keeps_walk_by retries_leaf.
Qed.

Lemma run_retries_bounded W ops :
  maxRetries (run W ops 0 new_bot).1 = 5%Z ∧
  (0 ≤ retryCount (run W ops 0 new_bot).1 ≤ 5)%Z ∧
  Forall (backoff_timer 5) (run W ops 0 new_bot).2.
Proof.
  destruct (run_keeps retries_bounded W ops 0 new_bot) as [Hmx H].
  { apply Forall_forall. intros o _. apply perform_retries_bounded. }
  cbn in Hmx, H. destruct H as [Hb Ht]; [lia|]. by repeat split; try lia.
Qed.

(** X2. Whatever the collaborators do and whatever is delivered, from the
    constructor on [maxRetries] stays 5 and [retryCount] stays within 0..5:
    the counter never runs past the ceiling. *)
Theorem retryCount_within_ceiling W ops :
  maxRetries (run W ops 0 new_bot).1 = 5%Z ∧
  (0 ≤ retryCount (run W ops 0 new_bot).1 ≤ 5)%Z.
Proof.
  destruct (run_retries_bounded W ops) as (H1 & H2 & _). by split.
Qed.

(** X3. Every timer the object ever waits on, in any run from the
    constructor, is one of the five backoff delays 2000, 4000, 8000, 16000
    and 30000 ms. *)
Theorem timers_are_backoff_delays W ops :
  Forall (λ ms, ms ∈ [2000; 4000; 8000; 16000; 30000]%Z)
         (delays (run W ops 0 new_bot).2).
Proof.
  destruct (run_retries_bounded W ops) as (_ & _ & H).
  induction H as [|e t He _ IH]; [constructor|].
  destruct e as [l m|ms|c r]; cbn; try exact IH.
  constructor; [|exact IH]. destruct He as (k & Hk & ->).
  assert (Hcases : (k = 1 ∨ k = 2 ∨ k = 3 ∨ k = 4 ∨ k = 5)%Z) by lia.
  destruct Hcases as [-> | [-> | [-> | [-> | ->] ] ] ];
    change (retryDelay 1) with 2000%Z; change (retryDelay 2) with 4000%Z;
    change (retryDelay 3) with 8000%Z; change (retryDelay 4) with 16000%Z;
    change (retryDelay 5) with 30000%Z;
    repeat first [apply list_elem_of_here | apply list_elem_of_further].
Qed.

(** ** At the ceiling, and after a logout *)

(** X4. The retry ceiling has no latch: once [retryCount] has reached
    [maxRetries] and a bridge exists, every further transient close sends
    the 'max reconnection attempts' notice to the users again, as many
    notices as closes, while no attempt is made and the object does not
    change. *)
Theorem ceiling_notice_repeats W bs : ∀ n s,
  is_Some (telegramBridge s) →
  (maxRetries s ≤ retryCount s)%Z →
  Forall (transient_close W) bs →
  (run W (OpBatch <$> bs) n s).1 = s ∧
  attempts (run W (OpBatch <$> bs) n s).2 = 0 ∧
  notices (run W (OpBatch <$> bs) n s).2 = length bs.
Proof.
  induction bs as [|b bs IH]; intros n s Hbr Hge Hbs; [done|].
  apply Forall_cons in Hbs as [Hb Hbs].
  destruct (batch_ceiling W n s b Hb Hge) as (Ha & _ & Hn & Hs).
  destruct Hbr as [br Hbr]. rewrite Hbr in Hn.
  cbn [fmap list_fmap run perform].
  destruct (process_batch b W n s) as [[r s1] t1].
  cbn [trace final fst snd] in Ha, Hn, Hs. subst s1.
  specialize (IH (n + length t1) s ltac:(by eexists) Hge Hbs).
  destruct (run W (OpBatch <$> bs) (n + length t1) s) as [s2 t2].
  cbn [fst snd length] in *. destruct IH as (-> & Ha2 & Hn2).
  unfold attempts, notices in *. rewrite !count_app. repeat split; lia.
Qed.

Lemma ceiling_notice_repeats_witness :
  notices (run calm (OpBatch <$> replicate 3 (batch_of_update close_unknown)) 30
               (set_retryCount 5 bridged_bot)).2 = 3.
Proof.
  assert (H : transient_close calm (batch_of_update close_unknown)).
  { exists close_unknown. repeat split. intros (o & Ho & _). discriminate Ho. }
  apply (ceiling_notice_repeats calm
           (replicate 3 (batch_of_update close_unknown)) 30
           (set_retryCount 5 bridged_bot) ltac:(by eexists) ltac:(reflexivity)).
  by repeat constructor.
Defined.

(** X5. A close caused by an explicit logout changes nothing in the object
    (the counter is not reset either), starts no timer and no attempt, and
    sends the 'logged out' notice once if a bridge exists, none otherwise. *)
Theorem logged_out_close_only_notifies W n s u :
  connection u = Some Close →
  result (handle_qr u W n s) = Ret tt →
  logged_out_cause W u →
  final (handleConnectionUpdate u W n s) = s ∧
  attempts (trace (handleConnectionUpdate u W n s)) = 0 ∧
  delays (trace (handleConnectionUpdate u W n s)) = [] ∧
  notices (trace (handleConnectionUpdate u W n s))
    = (if telegramBridge s is Some _ then 1 else 0) ∧
  (∀ b r, ECall (SendToAllUsers b NoticeMaxRetries) r
          ∉ trace (handleConnectionUpdate u W n s)).
Proof.
  intros Hc Hq Hr%shouldReconnect_false.
  rewrite (handleConnectionUpdate_close _ _ _ _ Hc Hq).
  rewrite (handle_close_logged_out _ _ _ _ Hc Hr).
  destruct (handle_qr_quiet u W n s) as [Hquiet _].
  pose proof (quiet_trace _ Hquiet) as (Ha & Hn & _ & _ & Hd).
  assert (Hno : ∀ b r, ECall (SendToAllUsers b NoticeMaxRetries) r
                       ∉ trace (handle_qr u W n s)).
  { intros b r Hin. rewrite Forall_forall in Hquiet.
    specialize (Hquiet _ Hin). discriminate Hquiet. }
  unfold attempts, notices in *.
  destruct (telegramBridge s) as [br|]; cbn [result final trace fst snd];
    rewrite !count_app, delays_app, Ha, Hn, Hd;
    (repeat split; try done);
    intros b r [Hin|Hin]%elem_of_app; try (by eapply Hno);
    repeat (apply elem_of_cons in Hin as [Hin|Hin]; [discriminate Hin|]);
    by apply elem_of_nil in Hin.
Qed.

Lemma logged_out_close_only_notifies_witness :
  final (handleConnectionUpdate (close_logged_out 401) calm 30
           (set_retryCount 3 bridged_bot)) = set_retryCount 3 bridged_bot.
Proof.
  apply (logged_out_close_only_notifies calm 30 (set_retryCount 3 bridged_bot)
           (close_logged_out 401) eq_refl eq_refl).
  by eexists.
Defined.

(** ** The QR stage *)

(** X6. A truthy QR code takes exactly one of two paths: with a bridge it
    is sent through the bridge and the terminal renderer is not even
    imported; without a bridge the renderer is imported and, if that
    worked, asked to draw the code. The object is not changed. An absent or
    empty QR code does nothing at all. *)
Theorem qr_one_path W n s u :
  final (handle_qr u W n s) = s ∧
  (truthy (qr u) = false → trace (handle_qr u W n s) = []) ∧
  (∀ q, qr u = Some q → q ≠ "" →
     trace (handle_qr u W n s) =
       ELog Info LQrReceived ::
       match telegramBridge s with
       | Some b => [ECall (SendQRCode b q) (fails W (n + 1) (SendQRCode b q))]
       | None =>
           match fails W (n + 1) ImportQrcodeTerminal with
           | Some e => [ECall ImportQrcodeTerminal (Some e)]
           | None => [ECall ImportQrcodeTerminal None;
                      ECall (QRCodeGenerate q)
                            (fails W (n + 2) (QRCodeGenerate q))]
           end
       end).
Proof.
  split; [by destruct (handle_qr_quiet u W n s) as [_ <-]|].
  split; [intros H; by rewrite handle_qr_falsy|].
  intros q Hq Hne. unfold handle_qr, truthy. rewrite Hq.
  replace (String.eqb q "") with false
    by (symmetry; by apply String.eqb_neq).
  unfold_monad. cbn. rewrite ?Nat.add_0_r.
  destruct (telegramBridge s) as [b|]; cbn.
  - by destruct (fails W (n + 1) (SendQRCode b q)).
  - destruct (fails W (n + 1) ImportQrcodeTerminal); cbn; [done|].
    rewrite <- ?Nat.add_assoc. cbn [Nat.add].
    by destruct (fails W (n + 2) (QRCodeGenerate q)).
Qed.

Lemma qr_one_path_witness :
  trace (handle_qr close_with_qr calm 30 bridged_bot) =
    [ELog Info LQrReceived; ECall (SendQRCode 19 "2@code") None].
Proof.
  exact (proj2 (proj2 (qr_one_path calm 30 bridged_bot close_with_qr))
           "2@code" eq_refl ltac:(discriminate)).
Defined.

(** X7. The stages of [handleConnectionUpdate] share no [try]: when the QR
    stage throws (the bridge cannot send the code, or the renderer cannot
    be imported), the update is over. For an update that also says
    [connection = 'close'] no reconnect is attempted, no timer runs and the
    counter is untouched, even for a transient cause. *)
Theorem qr_failure_skips_reconnect W n s u e :
  result (handle_qr u W n s) = Throw e →
  handleConnectionUpdate u W n s = handle_qr u W n s ∧
  result (handleConnectionUpdate u W n s) = Throw e ∧
  final (handleConnectionUpdate u W n s) = s ∧
  attempts (trace (handleConnectionUpdate u W n s)) = 0 ∧
  delays (trace (handleConnectionUpdate u W n s)) = [].
Proof.
  intros He.
  assert (Heq : handleConnectionUpdate u W n s = handle_qr u W n s).
  { unfold handleConnectionUpdate.
    destruct (handle_qr u W n s) as [[r s1] t1] eqn:E. cbn in He. subst r.
    by apply bind_throws. }
  rewrite Heq. destruct (handle_qr_quiet u W n s) as [Hquiet <-].
  apply quiet_trace in Hquiet as (Ha & _ & _ & _ & Hd). by repeat split.
Qed.

Lemma qr_failure_skips_reconnect_witness :
  attempts (trace (handleConnectionUpdate close_with_qr qr_send_fails 30
                     bridged_bot)) = 0 ∧
  attempts (trace (handleConnectionUpdate close_with_qr calm 30
                     bridged_bot)) = 1.
Proof.
  split; [|reflexivity].
  apply (qr_failure_skips_reconnect qr_send_fails 30 bridged_bot close_with_qr
           (External 3) eq_refl).
Defined.

(** ** Batches without a connection-state update *)

(** X8. A batch that carries no connection-state update never touches the
    supervisor: whatever its other fourteen kinds hold and whatever fails,
    the object is left exactly as it was, no connection attempt is made, no
    timer runs, no notice is sent and no bridge is constructed. *)
Theorem other_kinds_leave_supervisor_alone W n s b :
  ev_connection_update b = None →
  final (process_batch b W n s) = s ∧
  attempts (trace (process_batch b W n s)) = 0 ∧
  notices (trace (process_batch b W n s)) = 0 ∧
  constructions (trace (process_batch b W n s)) = 0 ∧
  delays (trace (process_batch b W n s)) = [].
Proof.
  intros Hb.
  destruct (process_batch_no_connection_update b Hb W n s) as [Hq <-].
  apply quiet_trace in Hq as (Ha & Hn & Hc & _ & Hd). by repeat split.
Qed.

Lemma other_kinds_leave_supervisor_alone_witness :
  final (process_batch messages_and_contacts messages_fail 16
           (set_retryCount 2 initialized_bot)) = set_retryCount 2 initialized_bot.
Proof.
  apply (other_kinds_leave_supervisor_alone messages_fail 16
           (set_retryCount 2 initialized_bot) messages_and_contacts eq_refl).
Defined.

(** ** After [shutdown] *)

Lemma shutdown_same_supervision :
  keeps (frame (λ _, true) same_supervision) shutdown.
Proof.
  unfold shutdown.
  keeps_walk_by ltac:(idtac;
    let W := fresh "W" in let n := fresh "n" in let s := fresh "s" in
    intros W n s; unfold log, ext, modify;
    repeat match goal with
           | |- context [fails ?W ?n ?c] => destruct (fails W n c)
           end;
    cbn; (split; [by apply Forall_true|by repeat split])).
Qed.

(** X9. [shutdown] does not switch the supervisor off: it leaves
    [retryCount], [maxRetries] and the bridge as they were, so a transient
    close delivered after it (with a counter from 0 on and below the
    ceiling) still waits the backoff delay and makes a new connection
    attempt. *)
Theorem shutdown_does_not_stop_reconnect W n s n' b :
  transient_close W b →
  (0 ≤ retryCount s < maxRetries s)%Z →
  retryCount (final (shutdown W n s)) = retryCount s ∧
  maxRetries (final (shutdown W n s)) = maxRetries s ∧
  attempts (trace (process_batch b W n' (final (shutdown W n s)))) = 1 ∧
  delays (trace (process_batch b W n' (final (shutdown W n s))))
    = [retryDelay (retryCount s + 1)].
Proof.
  intros Hb Hlt.
  destruct (shutdown_same_supervision W n s) as [_ (Hrc & Hmx & _)].
  destruct (batch_retry W n' (final (shutdown W n s)) b Hb) as (Ha & _ & Hd & _);
    [lia|].
  rewrite Hd, Hrc. by repeat split.
Qed.

Lemma shutdown_does_not_stop_reconnect_witness :
  attempts (trace (process_batch (batch_of_update close_unknown) calm 40
                     (final (shutdown calm 16 initialized_bot)))) = 1.
Proof.
  assert (H : transient_close calm (batch_of_update close_unknown)).
  { exists close_unknown. repeat split. intros (o & Ho & _). discriminate Ho. }
  apply (shutdown_does_not_stop_reconnect calm 16 initialized_bot 40
           (batch_of_update close_unknown) H).
  by split.
Defined.

(** ** Contact updates and calls *)

Lemma on_contact_update_lookup W n s c :
  is_Some (sock s) →
  ∃ t, on_contact_update c W n s = (Ret tt, s, t) ∧
       count is_lookup t = (if wants_lookup c then 1 else 0) ∧
       (count is_new_pic_log t ≤ count is_lookup_done t)%nat.
Proof.
  intros [h Hh]. unfold on_contact_update, wants_lookup.
  destruct (imgUrl c) as [| |url]; try (by exists []).
  unfold profilePictureUrl_or_null, the_sock. unfold_monad. rewrite Hh. cbn.
  destruct (fails W _ (ProfilePictureUrl (sock_id h) (contact_id c))); cbn.
  - eexists. split; [reflexivity|]. by split.
  - destruct (truthy (pictureUrl W _)); cbn;
      (eexists; split; [reflexivity|]; split; [done|]);
      rewrite ?count_cons, ?count_nil; cbn; lia.
Qed.

(** X10. With a handle stored, handling the contact updates of a batch
    never fails, whatever the lookups do, and leaves the object alone: one
    profile-picture lookup is made for each contact whose [imgUrl] is a
    string, none for a contact whose [imgUrl] is [null] or absent, and a
    'new profile pic' line is logged at most once per lookup that
    resolved. *)
Theorem contacts_update_lookups W cs : ∀ n s b,
  ev_contacts_update b = Some cs →
  is_Some (sock s) →
  result (on_contacts_update b W n s) = Ret tt ∧
  final (on_contacts_update b W n s) = s ∧
  count is_lookup (trace (on_contacts_update b W n s))
    = length (filter (λ c, wants_lookup c = true) cs) ∧
  (count is_new_pic_log (trace (on_contacts_update b W n s))
   ≤ count is_lookup_done (trace (on_contacts_update b W n s)))%nat.
Proof.
  intros n s b Hb Hs. unfold on_contacts_update. rewrite Hb. clear Hb b.
  revert n. induction cs as [|c cs IH]; intros n; [by cbn|].
  destruct (on_contact_update_lookup W n s c Hs) as (t & E & Hl & Hp).
  cbn [for_of]. rewrite (bind_returns _ _ _ _ _ _ _ _ E).
  destruct (IH (n + length t)) as (Hr & Hf & Hl' & Hp').
  cbn [result final trace fst snd]. rewrite !count_app, Hl, Hl'.
  repeat split; [exact Hr|exact Hf| |lia].
  destruct (wants_lookup c) eqn:Ew.
  - by rewrite filter_cons_True by exact Ew.
  - by rewrite filter_cons_False by (rewrite Ew; discriminate).
Qed.

Lemma contacts_update_lookups_witness :
  count is_lookup
    (trace (on_contacts_update three_contacts calm 16 initialized_bot)) = 1.
Proof.
  apply (contacts_update_lookups calm _ 16 initialized_bot three_contacts
           eq_refl ltac:(by eexists)).
Defined.

Lemma forwarded_calls_app t1 t2 :
  forwarded_calls (t1 ++ t2) = forwarded_calls t1 ++ forwarded_calls t2.
Proof. apply omap_app. Qed.

Lemma forward_calls W br calls : ∀ n s,
  final (for_of calls (λ call, ext (HandleCallNotification br call)) W n s) = s ∧
  forwarded_calls
    (trace (for_of calls (λ call, ext (HandleCallNotification br call)) W n s))
    `prefix_of` calls ∧
  (result (for_of calls (λ call, ext (HandleCallNotification br call)) W n s)
     = Ret tt →
   forwarded_calls
     (trace (for_of calls (λ call, ext (HandleCallNotification br call)) W n s))
     = calls).
Proof.
  induction calls as [|c calls IH]; intros n s; [by cbn|].
  cbn [for_of].
  pose proof (ext_outcome W n s (HandleCallNotification br c)) as E.
  destruct (fails W n (HandleCallNotification br c)) as [e|].
  - rewrite (bind_throws _ _ _ _ _ _ _ _ E).
    cbn. repeat split; [by apply prefix_cons, prefix_nil|discriminate].
  - rewrite (bind_returns _ _ _ _ _ _ _ _ E).
    destruct (IH (n + length [ECall (HandleCallNotification br c) None]) s)
      as (Hf & Hp & Hr).
    cbn [result final trace fst snd]. rewrite forwarded_calls_app.
    change (forwarded_calls [ECall (HandleCallNotification br c) None])
      with [c].
    cbn [app]. repeat split; [exact Hf|by apply prefix_cons|].
    intros Hret. by rewrite (Hr Hret).
Qed.

(** X11. The calls of a batch are handed to the bridge one by one, in the
    order of the batch, and only if a bridge exists: without a bridge the
    call event is only logged; with a bridge the calls handed over are a
    prefix of the calls of the batch, all of them when the handler
    returns, so the first notification that fails keeps every later call
    from being forwarded. The object is not changed. *)
Theorem calls_forwarded_in_order W n s b calls :
  ev_call b = Some calls →
  final (on_call b W n s) = s ∧
  (telegramBridge s = None →
     on_call b W n s = (Ret tt, s, [ELog Info LCallReceived])) ∧
  (is_Some (telegramBridge s) →
     forwarded_calls (trace (on_call b W n s)) `prefix_of` calls ∧
     (result (on_call b W n s) = Ret tt →
        forwarded_calls (trace (on_call b W n s)) = calls)).
Proof.
  intros Hb. unfold on_call. rewrite Hb.
  unfold bind at 1 2, log, gets. cbn.
  destruct (telegramBridge s) as [br|].
  - destruct (forward_calls W br calls (n + 1 + 0) s) as (Hf & Hp & Hr).
    destruct (for_of calls _ W (n + 1 + 0) s) as [[r s2] t2]. cbn in *.
    split; [exact Hf|]. split; [done|]. intros _. by split.
  - cbn. split; [done|]. split; [done|]. by intros [? [=]].
Qed.

Lemma calls_forwarded_in_order_witness :
  forwarded_calls (trace (on_call two_calls calm 30 bridged_bot))
    = ["call1"; "call2"].
Proof.
  apply (calls_forwarded_in_order calm 30 bridged_bot two_calls _ eq_refl).
  - by eexists.
  - reflexivity.
Defined.

(** ** [initialize] and a failing [startConnection] *)

Lemma startConnection_keeps_setup W n s :
  db (final (startConnection W n s)) = db s ∧
  isInitialized (final (startConnection W n s)) = isInitialized s ∧
  messageHandler (final (startConnection W n s)) = messageHandler s ∧
  moduleLoader (final (startConnection W n s)) = moduleLoader s.
Proof.
  destruct s as [sk st mh ml br d ini rc mx].
  unfold_methods. unfold_monad.
  destruct (cfg_useMongoAuth W n); case_calls; done.
Qed.

Lemma startConnection_failure_logged W n s e :
  result (startConnection W n s) = Throw e →
  last (trace (startConnection W n s)) = Some (ELog Error (LFailedStart e)).
Proof.
  unfold_methods. unfold_monad.
  destruct (cfg_useMongoAuth W n); case_calls; intros [=]; by subst.
Qed.

(** X12. [initialize] marks the object initialized only at its very end:
    when it returns, the database, the message handler and the module
    loader are stored, one connection attempt was made and the object holds
    a new handle with an empty store; when anything fails, the error is
    logged as 'Failed to initialize bot' as the last thing and re-thrown,
    and [isInitialized] is left as it was. A failure of the connection
    itself is logged twice, by [startConnection] and by [initialize].
    No connection attempt is made unless the module loader was built. *)
Theorem initialize_outcome W n s :
  match result (initialize W n s) with
  | Ret _ =>
      isInitialized (final (initialize W n s)) = true ∧
      db (final (initialize W n s)) = Some tt ∧
      messageHandler (final (initialize W n s)) = Some tt ∧
      moduleLoader (final (initialize W n s)) = Some tt ∧
      fresh_session (final (initialize W n s)) ∧
      attempts (trace (initialize W n s)) = 1
  | Throw e =>
      isInitialized (final (initialize W n s)) = isInitialized s ∧
      last (trace (initialize W n s)) = Some (ELog Error (LFailedInit e)) ∧
      (attempts (trace (initialize W n s)) = 1 →
       ELog Error (LFailedStart e) ∈ trace (initialize W n s))
  end ∧
  (attempts (trace (initialize W n s)) = 1 ↔
   ECall NewModuleLoader None ∈ trace (initialize W n s)).
Proof.
  unfold initialize.
  pose proof (startConnection_attempts W) as Hatt.
  pose proof (startConnection_returns W) as Hret.
  pose proof (startConnection_keeps_setup W) as Hkeep.
  pose proof (startConnection_failure_logged W) as Hlog.
  revert Hatt Hret Hkeep Hlog. generalize startConnection as sc.
  intros sc Hatt Hret Hkeep Hlog.
  destruct s as [sk st mh ml br d ini rc mx].
  unfold bind, ret, throw, try_catch, modify, log, ext, result, final, trace.
  cbn.
  destruct (fails W _ ConnectDb); cbn.
  { split; [by repeat split|]. split; [done|].
    intros H. repeat (apply elem_of_cons in H as [H|H]; [discriminate H|]).
    by apply elem_of_nil in H. }
  destruct (fails W _ NewMessageHandler); cbn.
  { split; [by repeat split|]. split; [done|].
    intros H. repeat (apply elem_of_cons in H as [H|H]; [discriminate H|]).
    by apply elem_of_nil in H. }
  destruct (fails W _ NewModuleLoader); cbn.
  { split; [by repeat split|]. split; [done|].
    intros H. repeat (apply elem_of_cons in H as [H|H]; [discriminate H|]).
    by apply elem_of_nil in H. }
  match goal with
  | |- context [sc W ?n' ?s'] =>
      specialize (Hatt n' s'); specialize (Hret n' s');
      specialize (Hkeep n' s'); specialize (Hlog n' s');
      destruct (sc W n' s') as [[[[]|e] s1] t1]
  end; unfold result, final, trace in *; cbn [fst snd] in *; cbn.
  - destruct (Hret eq_refl) as (h & Hsock & Hstore).
    destruct Hkeep as (Hd & Hi & Hmh & Hml).
    assert (Hcount : attempts
              (ELog Info LInitializing :: ECall ConnectDb None
               :: ELog Info LDatabaseConnected :: ECall NewMessageHandler None
               :: ECall NewModuleLoader None :: t1 ++ [ELog Info LInitComplete])
              = 1).
    { unfold attempts in *. rewrite !count_cons, count_app, Hatt. by cbn. }
    split.
    + repeat split; try done. by apply fresh_session_intro with h.
    + split; [intros _|done].
      repeat first [apply list_elem_of_here | apply list_elem_of_further].
  - destruct Hkeep as (Hd & Hi & Hmh & Hml).
    assert (Hcount : attempts
              (ELog Info LInitializing :: ECall ConnectDb None
               :: ELog Info LDatabaseConnected :: ECall NewMessageHandler None
               :: ECall NewModuleLoader None
               :: t1 ++ [ELog Error (LFailedInit e)])
              = 1).
    { unfold attempts in *. rewrite !count_cons, count_app, Hatt. by cbn. }
    split; [split; [done|split]|].
    + rewrite !last_cons, last_snoc. by destruct (last t1).
    + intros _. do 5 apply list_elem_of_further. apply elem_of_app. left.
      specialize (Hlog e eq_refl). by apply last_Some_elem_of.
    + split; [intros _|intros _; exact Hcount].
      repeat first [apply list_elem_of_here | apply list_elem_of_further].
Qed.

(** X13. Each call of [startConnection] loads the auth state through
    exactly one provider, the one the [auth.useMongoAuth] flag selects at
    that moment; the other provider is not called. *)
Theorem auth_provider_exclusive W n s :
  count is_mongo_auth (trace (startConnection W n s))
    = (if cfg_useMongoAuth W n then 1 else 0) ∧
  count is_file_auth (trace (startConnection W n s))
    = (if cfg_useMongoAuth W n then 0 else 1).
Proof.
  unfold_methods. unfold_monad.
  destruct (cfg_useMongoAuth W n); case_calls; by split.
Qed.

(** X14. A [startConnection] that throws logs 'Failed to start connection'
    as the last thing. If it throws before [makeInMemoryStore] returned,
    the object is exactly as before. If [makeWASocket] is what throws, the
    old handle stays in [this.sock] but [this.store] has already been
    replaced by a new, empty, unbound store: what the old store had cached
    is lost although no new connection exists. *)
Theorem failed_start_effects W n s :
  (∀ e, result (startConnection W n s) = Throw e →
        last (trace (startConnection W n s)) = Some (ELog Error (LFailedStart e))) ∧
  (ECall MakeInMemoryStore None ∉ trace (startConnection W n s) →
     final (startConnection W n s) = s) ∧
  (∀ e, ECall MakeWASocket (Some e) ∈ trace (startConnection W n s) →
        result (startConnection W n s) = Throw e ∧
        sock (final (startConnection W n s)) = sock s ∧
        store (final (startConnection W n s)) = Some makeInMemoryStore).
Proof.
  destruct s as [sk st mh ml br d ini rc mx].
  unfold_methods. unfold_monad.
  destruct (cfg_useMongoAuth W n); case_calls;
    (split; [intros e' [=]; by subst|]);
    (split;
     [ intros Hnot; first [ reflexivity
                          | exfalso; apply Hnot;
                            repeat first [apply list_elem_of_here
                                         | apply list_elem_of_further] ]
     | intros e' Hin;
       repeat (apply elem_of_cons in Hin as [Hin|Hin];
               [first [discriminate Hin | injection Hin as <-; by repeat split]|]);
       by apply elem_of_nil in Hin ]).
Qed.

Lemma failed_start_effects_witness :
  store (final (startConnection socket_fails 16 remembering_bot))
    = Some makeInMemoryStore ∧
  sock (final (startConnection socket_fails 16 remembering_bot))
    = sock remembering_bot.
Proof.
  destruct (proj2 (proj2 (failed_start_effects socket_fails 16 remembering_bot))
              (External 4)) as (_ & Hs & Hst).
  - repeat first [apply list_elem_of_here | apply list_elem_of_further].
  - by split.
Defined.

(** ** Without the bridge feature *)

#[global] Instance bridge_untouched_composes : Composes bridge_untouched.
Proof.
  split.
  - intros s H. split; [exact H|constructor].
  - intros s t1 s1 t2 s2 H1 H2 H. destruct (H1 H) as [E1 F1].
    destruct (H2 E1) as [E2 F2]. split; [exact E2|by apply Forall_app].
Qed.

Ltac untouched_leaf :=
  idtac;
  let W := fresh "W" in let n := fresh "n" in let s := fresh "s" in
  intros W n s;
  unfold log, delay, ext, modify;
  repeat match goal with
         | |- context [fails ?W ?n ?c] => destruct (fails W n c)
         end;
  cbn; unfold bridge_untouched; cbn; intros ?;
  (split; [assumption|repeat constructor]).

Lemma handle_qr_untouched u : keeps bridge_untouched (handle_qr u).
Proof.
  intros W n s Hn. unfold handle_qr.
  destruct (truthy (qr u)); [|by split; [|constructor]].
  unfold_monad. rewrite Hn. case_calls; (split; [done|repeat constructor]).
Qed.

Lemma startConnection_untouched : keeps bridge_untouched startConnection.
Proof.
  pose proof (keeps_the_sock bridge_untouched).
  unfold startConnection, setupEventHandlers. keeps_walk_by untouched_leaf.
Qed.

Lemma handle_close_untouched u : keeps bridge_untouched (handle_close u).
Proof.
  intros W n s Hn.
  destruct (connection u) as [[]|] eqn:Hc;
    try (unfold handle_close; rewrite Hc; by split; [|constructor]).
  destruct (shouldReconnect W u) eqn:Hr.
  - destruct (Z.ltb_spec (retryCount s) (maxRetries s)) as [Hlt|Hge].
    + rewrite (handle_close_retry _ _ _ _ Hc Hr Hlt). cbn [trace final fst snd].
      destruct (startConnection_untouched W (n + 3)
                  (set_retryCount (retryCount s + 1) s) Hn) as [E F].
      split; [exact E|]. by repeat constructor.
    + rewrite (handle_close_ceiling _ _ _ _ Hc Hr Hge), Hn.
      split; [done|repeat constructor].
  - rewrite (handle_close_logged_out _ _ _ _ Hc Hr), Hn.
    split; [done|repeat constructor].
Qed.

Lemma handle_open_untouched W u :
  (∀ k, cfg_telegram_enabled W k = false) →
  keeps_in W bridge_untouched (handle_open u).
Proof.
  intros Hcfg n s Hn. unfold handle_open.
  destruct (connection u) as [[]|]; try (by split; [|constructor]).
  destruct s as [sk st mh ml br d ini rc mx]. cbn in Hn. subst br.
  unfold_methods. unfold_monad. cbn.
  destruct sk; [|by split; [|repeat constructor]].
  cbn. destruct ml; [|by split; [|repeat constructor]].
  cbn. destruct (fails W _ LoadModules); cbn;
    [by split; [|repeat constructor]|].
  rewrite Hcfg. cbn. split; [done|repeat constructor].
Qed.

Lemma on_call_untouched b : keeps bridge_untouched (on_call b).
Proof.
  intros W n s Hn. unfold on_call.
  destruct (ev_call b); [|by split; [|constructor]].
  unfold_monad. rewrite Hn. cbn. split; [done|repeat constructor].
Qed.

Lemma shutdown_untouched : keeps bridge_untouched shutdown.
Proof.
  intros W n s Hn. destruct s as [sk st mh ml br d ini rc mx].
  cbn in Hn. subst br. unfold_methods. unfold_monad. cbn.
  destruct sk; case_calls; (split; [done|repeat constructor]).
Qed.

Lemma perform_untouched W o :
  (∀ k, cfg_telegram_enabled W k = false) →
  keeps_in W bridge_untouched (perform o).
Proof.
  intros Hcfg.
  pose proof (keeps_the_sock bridge_untouched) as Hsock.
  pose proof startConnection_untouched as Hstart.
  pose proof on_call_untouched as Hcall.
  assert (Hcu : ∀ u, keeps_in W bridge_untouched (handleConnectionUpdate u)).
  { intros u. unfold handleConnectionUpdate.
    apply keeps_in_bind; [typeclasses eauto| |intros _].
    { apply keeps_in_of_keeps, handle_qr_untouched. }
    apply keeps_in_bind; [typeclasses eauto| |intros _].
    { apply keeps_in_of_keeps, handle_close_untouched. }
    apply keeps_in_bind; [typeclasses eauto| |intros _].
    { by apply handle_open_untouched. }
    apply keeps_in_of_keeps. unfold handle_connecting.
    keeps_walk_by untouched_leaf. }
  destruct o; cbn [perform].
  - apply keeps_in_of_keeps. unfold initialize. keeps_walk_by untouched_leaf.
  - by apply keeps_in_of_keeps.
  - change (process_batch b)
      with (bind (on_connection_update b) (λ _, after_connection_update b)).
    apply keeps_in_bind; [typeclasses eauto| |intros _].
    + unfold on_connection_update.
      destruct (ev_connection_update b); [apply Hcu|].
      apply keeps_in_of_keeps, keeps_ret. typeclasses eauto.
    + apply keeps_in_of_keeps. unfold after_connection_update,
        on_creds_update, on_messages_upsert, on_messages_update,
        on_message_receipt_update, on_messages_reaction, on_presence_update,
        on_chats_update, on_chats_delete, on_contacts_update,
        on_contact_update, profilePictureUrl_or_null, on_contacts_upsert,
        on_messaging_history_set, on_labels_association, on_labels_edit.
      keeps_walk_by untouched_leaf.
  - apply Hcu.
  - apply keeps_in_of_keeps. unfold getMessage. keeps_walk_by untouched_leaf.
  - apply keeps_in_of_keeps. unfold sendMessage. keeps_walk_by untouched_leaf.
  - apply keeps_in_of_keeps, shutdown_untouched.
Qed.

(** X15. While [telegram.enabled] is off, the object never gets a bridge
    and never calls one: in any run from the constructor no bridge is
    constructed, no QR code, call, notice or sync step goes to a bridge,
    and [this.telegramBridge] stays [null]. *)
Theorem disabled_bridge_never_used W ops :
  (∀ k, cfg_telegram_enabled W k = false) →
  telegramBridge (run W ops 0 new_bot).1 = None ∧
  Forall (λ e, is_bridge_call e = false) (run W ops 0 new_bot).2.
Proof.
  intros Hcfg.
  apply (run_keeps_in W bridge_untouched ops 0 new_bot); [|reflexivity].
  apply Forall_forall. intros o _. by apply perform_untouched.
Qed.

Lemma disabled_bridge_never_used_witness :
  telegramBridge
    (run no_telegram [OpInitialize; OpConnectionUpdate open_update;
                      OpBatch two_calls; OpShutdown] 0 new_bot).1 = None.
Proof.
  apply (disabled_bridge_never_used no_telegram
           [OpInitialize; OpConnectionUpdate open_update;
            OpBatch two_calls; OpShutdown] (λ _, eq_refl)).
Defined.

(** ** A bridge that could not be initialized *)

Lemma handle_open_initialize_failed W n s u b e :
  ECall (BridgeInitialize b) (Some e) ∈ trace (handle_open u W n s) →
  result (handle_open u W n s) = Throw e ∧
  telegramBridge (final (handle_open u W n s)) = Some b.
Proof.
  unfold handle_open.
  destruct (connection u) as [[]|]; try (by intros ?%elem_of_nil).
  destruct s as [sk st mh ml br d ini rc mx].
  unfold_methods. unfold_monad. cbn.
  destruct sk; cbn;
    [|intros H; repeat (apply elem_of_cons in H as [H|H]; [discriminate H|]);
      by apply elem_of_nil in H].
  destruct ml; cbn;
    [|intros H; repeat (apply elem_of_cons in H as [H|H]; [discriminate H|]);
      by apply elem_of_nil in H].
  destruct (fails W _ LoadModules); cbn;
    [intros H; repeat (apply elem_of_cons in H as [H|H]; [discriminate H|]);
     by apply elem_of_nil in H|].
  destruct (cfg_telegram_enabled W _); cbn;
    [|intros H; repeat (apply elem_of_cons in H as [H|H]; [discriminate H|]);
      by apply elem_of_nil in H].
  destruct br; case_calls; intros H;
    repeat (apply elem_of_cons in H as [H|H];
            [first [discriminate H | injection H as <- <-; by split]|]);
    by apply elem_of_nil in H.
Qed.

(** X16. A bridge whose [initialize()] threw on an open is kept in
    [this.telegramBridge]: the open handler ends with that error, and in
    everything that follows, whatever is delivered, no bridge is ever
    constructed again and [initialize()] is never called again; later
    opens find the stored, uninitialized bridge and go on with it. *)
Theorem failed_bridge_initialize_not_retried W n s u b e ops n' :
  connection u = Some Open →
  ECall (BridgeInitialize b) (Some e) ∈ trace (handleConnectionUpdate u W n s) →
  result (handleConnectionUpdate u W n s) = Throw e ∧
  telegramBridge (final (handleConnectionUpdate u W n s)) = Some b ∧
  telegramBridge (run W ops n' (final (handleConnectionUpdate u W n s))).1
    = Some b ∧
  constructions (run W ops n' (final (handleConnectionUpdate u W n s))).2 = 0 ∧
  initializations (run W ops n' (final (handleConnectionUpdate u W n s))).2 = 0.
Proof.
  intros Hc Hin.
  assert (Hnq : ECall (BridgeInitialize b) (Some e) ∉ trace (handle_qr u W n s)).
  { intros H. destruct (handle_qr_quiet u W n s) as [Hquiet _].
    rewrite Forall_forall in Hquiet. specialize (Hquiet _ H). discriminate. }
  assert (Hq : result (handle_qr u W n s) = Ret tt).
  { destruct (result (handle_qr u W n s)) as [[]|e'] eqn:E; [done|].
    destruct (handle_qr u W n s) as [[r s1] t1] eqn:E'. cbn in E. subst r.
    unfold handleConnectionUpdate in Hin.
    rewrite (bind_throws _ _ _ _ _ _ _ _ E') in Hin. by destruct Hnq. }
  rewrite (handleConnectionUpdate_open _ _ _ _ Hc Hq) in *.
  cbn [result final trace fst snd] in *.
  apply elem_of_app in Hin as [Hin|Hin]; [by destruct Hnq|].
  destruct (handle_open_initialize_failed _ _ _ _ _ _ Hin) as [Hr Hb].
  split; [exact Hr|]. split; [exact Hb|].
  pose proof (run_keeps bridge_once W ops n'
                (final (handle_open u W (n + length (trace (handle_qr u W n s))) s)))
    as Hrun.
  unfold bridge_once in Hrun. rewrite Hb in Hrun. apply Hrun.
  apply Forall_forall. intros o _. apply perform_bridge_once.
Qed.

Lemma failed_bridge_initialize_not_retried_witness :
  initializations
    (run bridge_init_fails [OpConnectionUpdate open_update;
                            OpConnectionUpdate open_update] 40
       (final (handleConnectionUpdate open_update bridge_init_fails 16
                 initialized_bot))).2 = 0.
Proof.
  apply (failed_bridge_initialize_not_retried bridge_init_fails 16
           initialized_bot open_update 19 (External 5)
           [OpConnectionUpdate open_update; OpConnectionUpdate open_update] 40
           eq_refl).
  repeat first [apply list_elem_of_here | apply list_elem_of_further].
Defined.

(** ** An open whose modules cannot be loaded *)

(** X18. On an open the modules are loaded before anything is done with
    the bridge: when [loadModules()] throws, the handler ends with that
    error after the counter was reset, no bridge is constructed and no
    bridge call (sync, topic names, start message) is made, so
    [this.telegramBridge] is what it was. *)
Theorem failed_module_load_skips_bridge W n s u e :
  connection u = Some Open →
  truthy (qr u) = false →
  ECall LoadModules (Some e) ∈ trace (handleConnectionUpdate u W n s) →
  result (handleConnectionUpdate u W n s) = Throw e ∧
  retryCount (final (handleConnectionUpdate u W n s)) = 0%Z ∧
  telegramBridge (final (handleConnectionUpdate u W n s)) = telegramBridge s ∧
  Forall (λ ev, is_bridge_call ev = false)
         (trace (handleConnectionUpdate u W n s)).
Proof.
  intros Hc Hqr.
  assert (Hq : result (handle_qr u W n s) = Ret tt)
    by (by rewrite handle_qr_falsy).
  rewrite (handleConnectionUpdate_open _ _ _ _ Hc Hq).
  rewrite handle_qr_falsy by done. cbn [result final trace fst snd length app].
  rewrite Nat.add_0_r. unfold handle_open. rewrite Hc.
  destruct s as [sk st mh ml br d ini rc mx].
  unfold_methods. unfold_monad. cbn.
  destruct sk; cbn;
    [|intros H; repeat (apply elem_of_cons in H as [H|H]; [discriminate H|]);
      by apply elem_of_nil in H].
  destruct ml; cbn;
    [|intros H; repeat (apply elem_of_cons in H as [H|H]; [discriminate H|]);
      by apply elem_of_nil in H].
  destruct (fails W _ LoadModules) eqn:F; cbn.
  - intros H.
    repeat (apply elem_of_cons in H as [H|H];
            [first [discriminate H | injection H as <-]|]);
      [|by apply elem_of_nil in H].
    repeat split; repeat constructor.
  - destruct (cfg_telegram_enabled W _); cbn;
      [|intros H; repeat (apply elem_of_cons in H as [H|H]; [discriminate H|]);
        by apply elem_of_nil in H].
    destruct br; case_calls; intros H;
      repeat (apply elem_of_cons in H as [H|H]; [discriminate H|]);
      by apply elem_of_nil in H.
Qed.

Lemma failed_module_load_skips_bridge_witness :
  telegramBridge
    (final (handleConnectionUpdate open_update modules_fail 16
              (set_retryCount 4 initialized_bot))) = None ∧
  retryCount
    (final (handleConnectionUpdate open_update modules_fail 16
              (set_retryCount 4 initialized_bot))) = 0%Z.
Proof.
  destruct (failed_module_load_skips_bridge modules_fail 16
              (set_retryCount 4 initialized_bot) open_update (External 6)
              eq_refl eq_refl) as (_ & Hrc & Hbr & _).
  - repeat first [apply list_elem_of_here | apply list_elem_of_further].
  - by split.
Defined.
